(** * Dynamic request batching of the NSFW detector (licsber/faas)

    A shallow embedding of [functions/nsfw-detector/main_batch.py] and
    [functions/nsfw-detector/main_optimized.py]:

    - [_detect_batch] / [_detect_single] as functions in an error monad
      that logs every call of the preprocessor and of the model;
    - the configuration read from the environment, [init_context] and
      the routing done by [handler];
    - the threads ([_batch_processor] and the request threads running
      [_process_with_batch]) as a labelled transition system over the
      shared objects [request_queue], [results_map], the [Event] flags
      and a clock in microseconds. *)

From Stdlib Require Import Ascii String.
From stdpp Require Import gmap strings list fin_maps.

Open Scope Z_scope.

(** ** Exceptions and the call log *)

Inductive exn : Type :=
| IndexError
| KeyError
| ValueError
| AdapterError (msg : string).

(** ** Configuration read from the environment *)

(** [int(s)] for a decimal literal: blanks around it are dropped, a sign
    is allowed, and single underscores may separate digits. *)
Definition is_space (c : ascii) : bool :=
  let n := nat_of_ascii c in
  ((n =? 32) || ((9 <=? n) && (n <=? 13)) || ((28 <=? n) && (n <=? 31)))%nat.

Fixpoint lstrip (s : list ascii) : list ascii :=
  match s with
  | c :: s' => if is_space c then lstrip s' else s
  | [] => []
  end.

Definition strip (s : list ascii) : list ascii :=
  rev (lstrip (rev (lstrip s))).

Definition digit_of (c : ascii) : option Z :=
  let n := nat_of_ascii c in
  if ((48 <=? n) && (n <=? 57))%nat then Some (Z.of_nat n - 48) else None.

(** [after_digit]: the previous character was a digit (an underscore is
    only legal there and must be followed by a digit). *)
Fixpoint digits (s : list ascii) (after_digit : bool) (acc : Z) : option Z :=
  match s with
  | [] => if after_digit then Some acc else None
  | c :: s' =>
      match digit_of c with
      | Some d => digits s' true (10 * acc + d)
      | None =>
          if (nat_of_ascii c =? 95)%nat && after_digit then digits s' false acc
          else None
      end
  end.

Definition py_int (s : string) : exn + Z :=
  let body := strip (list_ascii_of_string s) in
  let '(neg, ds) :=
    match body with
    | c :: ds => if (nat_of_ascii c =? 45)%nat then (true, ds)
                 else if (nat_of_ascii c =? 43)%nat then (false, ds)
                 else (false, body)
    | [] => (false, body)
    end in
  match digits ds false 0 with
  | Some n => inr (if neg then - n else n)
  | None => inl ValueError
  end.

(** [os.getenv(key, default)] *)
Definition getenv (environ : gmap string string) (key default : string) : string :=
  match environ !! key with
  | Some v => v
  | None => default
  end.

(** The two serving modules that batch dynamically. *)
Inductive source : Type := MainBatch | MainOptimized.

(** The module level constants.  [maxsize] is the argument of
    [queue.Queue]: main_batch.py builds [queue.Queue()], whose [maxsize]
    is 0, main_optimized.py builds [queue.Queue(maxsize=MAX_QUEUE_SIZE)]. *)
Record program : Type := {
  src : source;
  BATCH_SIZE : Z;
  BATCH_TIMEOUT_MS : Z;
  maxsize : Z;
}.

Definition load (from : source) (environ : gmap string string) : exn + program :=
  match from with
  | MainBatch =>
      match py_int (getenv environ "BATCH_SIZE" "4") with
      | inl e => inl e
      | inr bs =>
          match py_int (getenv environ "BATCH_TIMEOUT_MS" "10") with
          | inl e => inl e
          | inr ms => inr {| src := MainBatch; BATCH_SIZE := bs;
                             BATCH_TIMEOUT_MS := ms; maxsize := 0 |}
          end
      end
  | MainOptimized =>
      match py_int (getenv environ "BATCH_SIZE" "1") with
      | inl e => inl e
      | inr bs =>
          match py_int (getenv environ "BATCH_TIMEOUT_MS" "50") with
          | inl e => inl e
          | inr ms =>
              match py_int (getenv environ "MAX_QUEUE_SIZE" "100") with
              | inl e => inl e
              | inr mq => inr {| src := MainOptimized; BATCH_SIZE := bs;
                                 BATCH_TIMEOUT_MS := ms; maxsize := mq |}
              end
          end
      end
  end.

Definition USE_DYNAMIC_BATCH (p : program) : bool := 1 <? BATCH_SIZE p.

(** ** The collaborators

    What the detector takes from outside: decoded images, the tensors the
    preprocessor builds, floating point numbers with the operations the
    code applies to them, the preprocessor and the model.  [model] stands
    for the forward pass followed by the softmax over its logits: it
    returns one row of probabilities per input.  [id2label] is
    [model.config.id2label].  For the handler: the encoded image of a
    request body, its decoding, the download of a URL (with
    [raise_for_status]) and the white 224x224 image of the warm-up. *)
Class Collaborators : Type := {
  Image : Type;
  Inputs : Type;
  float : Type;
  image_data : Type;
  fltb : float → float → bool;
  round4 : float → float;
  processor : list Image → exn + Inputs;
  model : Inputs → exn + list (list float);
  id2label : gmap nat string;
  preprocess_image : image_data → exn + Image;
  requests_get : string → exn + image_data;
  white : Image;
}.

Section Detector.

Context `{Collaborators}.

Inductive call : Type :=
| CallProcessor (images : list Image)
| CallModel (inputs : Inputs).

(** Computations that may raise and that log their collaborator calls. *)
Definition M (A : Type) : Type := list call → (exn + A) * list call.

Definition ret {A} (a : A) : M A := λ log, (inr a, log).
Definition raise {A} (e : exn) : M A := λ log, (inl e, log).
Definition bind {A B} (m : M A) (k : A → M B) : M B :=
  λ log, match m log with
         | (inl e, log') => (inl e, log')
         | (inr a, log') => k a log'
         end.
Definition lift {A} (r : exn + A) : M A := λ log, (r, log).
Definition invoke {A} (c : call) (r : exn + A) : M A := λ log, (r, log ++ [c]).

Notation "'let*' x ':=' m 'in' k" := (bind m (λ x, k))
  (at level 10, x name, m at level 100, k at level 200).

(** ** The result of one image *)

Record result : Type := {
  is_nsfw : bool;
  predicted_class : string;
  confidence : float;
  scores : gmap string float;
}.

(** [str.lower] on the ASCII letters.  The lowered class name is only
    compared with six ASCII words, none of which holds a [k], so the
    other code points do not matter. *)
Definition lower_ascii (c : ascii) : ascii :=
  let n := nat_of_ascii c in
  if ((65 <=? n) && (n <=? 90))%nat then ascii_of_nat (n + 32) else c.

Fixpoint lower (s : string) : string :=
  match s with
  | EmptyString => EmptyString
  | String c s' => String (lower_ascii c) (lower s')
  end.

Definition nsfw_classes : list string :=
  ["nsfw"; "unsafe"; "adult"; "porn"; "hentai"; "sexy"]%string.

(** [np.argmax]: the first position of the greatest entry. *)
Fixpoint argmax_from (best_i : nat) (best : float) (i : nat) (l : list float) : nat * float :=
  match l with
  | [] => (best_i, best)
  | x :: l' => if fltb best x then argmax_from i x (S i) l'
               else argmax_from best_i best (S i) l'
  end.

Definition argmax (probs : list float) : exn + (nat * float) :=
  match probs with
  | [] => inl ValueError
  | x :: l => inr (argmax_from 0%nat x 1%nat l)
  end.

(** [{labels[j]: float(probs[j]) for j in range(len(labels))}] *)
Fixpoint scores_of (labels : gmap nat string) (probs : list float)
    (js : list nat) (acc : gmap string float) : exn + gmap string float :=
  match js with
  | [] => inr acc
  | j :: js' =>
      match labels !! j with
      | None => inl KeyError
      | Some k =>
          match probs !! j with
          | None => inl IndexError
          | Some v => scores_of labels probs js' (<[k := v]> acc)
          end
      end
  end.

(** The body of the loop of [_detect_batch] (and the tail of
    [_detect_single]) for one row of probabilities. *)
Definition row_result (probs : list float) : exn + result :=
  match scores_of id2label probs (seq 0 (size id2label)) ∅ with
  | inl e => inl e
  | inr sc =>
      match argmax probs with
      | inl e => inl e
      | inr (am, mx) =>
          match id2label !! am with
          | None => inl KeyError
          | Some cls =>
              inr {| is_nsfw := bool_decide (lower cls ∈ nsfw_classes);
                     predicted_class := cls;
                     confidence := round4 mx;
                     scores := round4 <$> sc |}
          end
      end
  end.

(** [for i in range(len(images)): ... results.append(...)] *)
Fixpoint collect_rows (probabilities : list (list float)) (idxs : list nat)
    (results : list result) : exn + list result :=
  match idxs with
  | [] => inr results
  | i :: idxs' =>
      match probabilities !! i with
      | None => inl IndexError
      | Some probs =>
          match row_result probs with
          | inl e => inl e
          | inr r => collect_rows probabilities idxs' (results ++ [r])
          end
      end
  end.

Definition _detect_batch (images : list Image) : M (list result) :=
  match images with
  | [] => ret []
  | _ =>
      let* inputs := invoke (CallProcessor images) (processor images) in
      let* probabilities := invoke (CallModel inputs) (model inputs) in
      lift (collect_rows probabilities (seq 0 (length images)) [])
  end.

(** [_detect_single] of main_optimized.py: [processor(images=image)]
    takes the single image as a batch of one, and row 0 is read. *)
Definition _detect_single (image : Image) : M result :=
  let* inputs := invoke (CallProcessor [image]) (processor [image]) in
  let* probabilities := invoke (CallModel inputs) (model inputs) in
  lift (match probabilities !! 0%nat with
        | None => inl IndexError
        | Some probs => row_result probs
        end).

(** [xs[0]] *)
Definition first {A} (xs : list A) : exn + A :=
  match xs with
  | [] => inl IndexError
  | x :: _ => inr x
  end.

(** ** Shared objects and threads *)

(** [f"{time.time()}_{threading.current_thread().ident}"]: the clock
    reading and the identifier of the request thread. *)
Definition RequestId : Type := Z * nat.

(** The dict put on the queue.  [event] names the [threading.Event]
    object the request thread created for it. *)
Record item : Type := {
  request_id : RequestId;
  image : Image;
  event : nat;
}.

Inductive thread : Type :=
| Aggregator
| Request (i : nat).

#[global] Instance thread_eq_dec : EqDecision thread.
Proof. solve_decision. Defined.

(** Where the thread running [_batch_processor] stands. *)
Inductive agg_pc : Type :=
| ARound
    (* top of [while True] *)
| ACollect (start_time : Z) (batch_items : list item)
    (* head of [while len(batch_items) < BATCH_SIZE] *)
| AGet (start_time : Z) (batch_items : list item) (deadline : Z)
    (* inside [request_queue.get(timeout=wait_time)] *)
| ADetect (start_time : Z) (batch_items : list item)
    (* inside [_detect_batch(batch_images)] *)
| AStore (batch_items : list item) (results : list result) (i : nat)
    (* [for i, item in enumerate(batch_items)], before the write *)
| ASet (batch_items : list item) (results : list result) (i : nat)
    (* after the write, before [item['event'].set()] *)
| AExcept (rest : list item).
    (* [except Exception]: [for item in batch_items] *)

(** Where a request thread running [_process_with_batch] stands. *)
Inductive caller_pc : Type :=
| CStart
| CPut (it : item) (deadline : Z)
    (* inside [request_queue.put(item, timeout=5)], queue full *)
| CWait (it : item) (deadline : Z)
    (* inside [event.wait(timeout=30)] *)
| CPop (it : item)
    (* before [with map_lock: results_map.pop(request_id, None)] *)
| CDirect
    (* inside the direct detection call *)
| CReturn (r : exn + result).

Record caller : Type := {
  ident : nat;
  input : Image;
  pc : caller_pc;
}.

Record state : Type := {
  now : Z;                                   (* time.time(), microseconds *)
  request_queue : list item;
  results_map : gmap RequestId result;
  events : gset nat;                         (* the Event objects that are set *)
  inflight : list (thread * list Image);     (* detection calls under way *)
  calls : list call;
  batch_thread : option agg_pc;
  callers : list caller;
}.

Definition set_now (t : Z) (s : state) : state :=
  {| now := t; request_queue := request_queue s; results_map := results_map s;
     events := events s; inflight := inflight s; calls := calls s;
     batch_thread := batch_thread s; callers := callers s |}.

Definition set_queue (q : list item) (s : state) : state :=
  {| now := now s; request_queue := q; results_map := results_map s;
     events := events s; inflight := inflight s; calls := calls s;
     batch_thread := batch_thread s; callers := callers s |}.

Definition set_results (m : gmap RequestId result) (s : state) : state :=
  {| now := now s; request_queue := request_queue s; results_map := m;
     events := events s; inflight := inflight s; calls := calls s;
     batch_thread := batch_thread s; callers := callers s |}.

Definition set_events (ev : gset nat) (s : state) : state :=
  {| now := now s; request_queue := request_queue s; results_map := results_map s;
     events := ev; inflight := inflight s; calls := calls s;
     batch_thread := batch_thread s; callers := callers s |}.

Definition set_inflight (fl : list (thread * list Image)) (s : state) : state :=
  {| now := now s; request_queue := request_queue s; results_map := results_map s;
     events := events s; inflight := fl; calls := calls s;
     batch_thread := batch_thread s; callers := callers s |}.

Definition set_calls (log : list call) (s : state) : state :=
  {| now := now s; request_queue := request_queue s; results_map := results_map s;
     events := events s; inflight := inflight s; calls := log;
     batch_thread := batch_thread s; callers := callers s |}.

Definition set_agg (a : agg_pc) (s : state) : state :=
  {| now := now s; request_queue := request_queue s; results_map := results_map s;
     events := events s; inflight := inflight s; calls := calls s;
     batch_thread := Some a; callers := callers s |}.

Definition set_pc (i : nat) (c : caller) (a : caller_pc) (s : state) : state :=
  {| now := now s; request_queue := request_queue s; results_map := results_map s;
     events := events s; inflight := inflight s; calls := calls s;
     batch_thread := batch_thread s;
     callers := <[i := {| ident := ident c; input := input c; pc := a |}]> (callers s) |}.

(** A detection call starts (the thread enters the model) and ends. *)
Definition enter (t : thread) (images : list Image) (s : state) : state :=
  set_inflight (inflight s ++ [(t, images)]) s.

Definition leave (t : thread) (s : state) : state :=
  set_inflight (filter (λ e, e.1 ≠ t) (inflight s)) s.

(** The detection calls thread [t] has under way. *)
Definition calls_of (t : thread) (s : state) : list (thread * list Image) :=
  filter (λ e, e.1 = t) (inflight s).

(** [Queue.full()]: [0 < maxsize <= qsize]. *)
Definition full (p : program) (q : list item) : bool :=
  (0 <? maxsize p) && (maxsize p <=? Z.of_nat (length q)).

Definition second : Z := 1000000.
Definition millisecond : Z := 1000.

(** *** The aggregator thread: [_batch_processor] *)

(** What follows the collecting loop: [if batch_items:] and the entry
    into [_detect_batch(batch_images)]. *)
Definition after_collect (start_time : Z) (batch_items : list item) (s : state) : state :=
  match batch_items with
  | [] => set_agg ARound s
  | _ => set_agg (ADetect start_time batch_items)
           (enter Aggregator (image <$> batch_items) s)
  end.

Definition agg_step (p : program) (a : agg_pc) (s : state) : option state :=
  match a with
  | ARound =>
      (* batch_items = []; start_time = time.time() *)
      Some (set_agg (ACollect (now s) []) s)
  | ACollect start_time batch_items =>
      if Z.of_nat (length batch_items) <? BATCH_SIZE p then
        let timeout_sec := BATCH_TIMEOUT_MS p * millisecond in
        let elapsed := now s - start_time in
        let remaining := timeout_sec - elapsed in
        if (remaining <=? 0) && (0 <? length batch_items)%nat then
          Some (after_collect start_time batch_items s)
        else
          let wait_time :=
            if 0 <? remaining then Z.max millisecond remaining else millisecond in
          Some (set_agg (AGet start_time batch_items (now s + wait_time)) s)
      else Some (after_collect start_time batch_items s)
  | AGet start_time batch_items deadline =>
      match request_queue s with
      | it :: q =>
          Some (set_agg (ACollect start_time (batch_items ++ [it])) (set_queue q s))
      | [] =>
          if deadline <=? now s then
            (* queue.Empty *)
            if (0 <? length batch_items)%nat
            then Some (after_collect start_time batch_items s)
            else Some (set_agg (ACollect start_time batch_items) s)
          else None
      end
  | ADetect start_time batch_items =>
      let '(r, log) := _detect_batch (image <$> batch_items) (calls s) in
      let s' := set_calls log (leave Aggregator s) in
      match r with
      | inr results => Some (set_agg (AStore batch_items results 0) s')
      | inl _ => Some (set_agg (AExcept batch_items) s')
      end
  | AStore batch_items results i =>
      match batch_items !! i with
      | None => Some (set_agg ARound s)
      | Some it =>
          match results !! i with
          | None => (* IndexError *) Some (set_agg (AExcept batch_items) s)
          | Some r =>
              Some (set_agg (ASet batch_items results i)
                      (set_results (<[request_id it := r]> (results_map s)) s))
          end
      end
  | ASet batch_items results i =>
      match batch_items !! i with
      | None => Some (set_agg ARound s)
      | Some it =>
          Some (set_agg (AStore batch_items results (S i))
                  (set_events ({[event it]} ∪ events s) s))
      end
  | AExcept rest =>
      match rest with
      | [] => Some (set_agg ARound s)
      | it :: rest' =>
          Some (set_agg (AExcept rest') (set_events ({[event it]} ∪ events s) s))
      end
  end.

(** *** A request thread: [_process_with_batch] *)

(** The detection a request thread runs itself: [_detect_batch([image])[0]]
    in main_batch.py, [_detect_single(image)] in main_optimized.py. *)
Definition direct (p : program) (image : Image) : M result :=
  match src p with
  | MainBatch => let* results := _detect_batch [image] in lift (first results)
  | MainOptimized => _detect_single image
  end.

Definition start_direct (i : nat) (c : caller) (s : state) : state :=
  set_pc i c CDirect (enter (Request i) [input c] s).

Definition enqueue (i : nat) (c : caller) (it : item) (s : state) : state :=
  set_pc i c (CWait it (now s + 30 * second)) (set_queue (request_queue s ++ [it]) s).

Definition caller_step (p : program) (i : nat) (c : caller) (s : state) : option state :=
  match pc c with
  | CStart =>
      let it := {| request_id := (now s, ident c); image := input c; event := i |} in
      if full p (request_queue s)
      then Some (set_pc i c (CPut it (now s + 5 * second)) s)
      else Some (enqueue i c it s)
  | CPut it deadline =>
      if full p (request_queue s) then
        if deadline <=? now s
        then (* queue.Full *) Some (start_direct i c s)
        else None
      else Some (enqueue i c it s)
  | CWait it deadline =>
      if bool_decide (event it ∈ events s) || (deadline <=? now s)
      then Some (set_pc i c (CPop it) s)
      else None
  | CPop it =>
      match results_map s !! request_id it with
      | Some r =>
          Some (set_pc i c (CReturn (inr r))
                  (set_results (delete (request_id it) (results_map s)) s))
      | None => Some (start_direct i c s)
      end
  | CDirect =>
      let '(r, log) := direct p (input c) (calls s) in
      Some (set_pc i c (CReturn r) (set_calls log (leave (Request i) s)))
  | CReturn _ => None
  end.



(** How long, at time [t], the blocking call the thread is in may still
    last. *)
Definition wait_left (t : Z) (a : caller_pc) : Z :=
  match a with
  | CPut _ deadline | CWait _ deadline => Z.max 0 (deadline - t)
  | _ => 0
  end.

(** How far a request thread has come. *)
Definition stage (a : caller_pc) : nat :=
  match a with
  | CStart => 0
  | CPut _ _ => 1
  | CWait _ _ => 2
  | CPop _ => 3
  | CDirect => 4
  | CReturn _ => 5
  end.

(** *** The system *)

Inductive label : Type :=
| Tick (d : Z)
| Run (t : thread).

Definition step (p : program) (s : state) (l : label) : option state :=
  match l with
  | Tick d => if 0 <=? d then Some (set_now (now s + d) s) else None
  | Run Aggregator =>
      match batch_thread s with
      | Some a => agg_step p a s
      | None => None
      end
  | Run (Request i) =>
      match callers s !! i with
      | Some c => caller_step p i c s
      | None => None
      end
  end.

Fixpoint run (p : program) (s : state) (ls : list label) : option state :=
  match ls with
  | [] => Some s
  | l :: ls' =>
      match step p s l with
      | Some s' => run p s' ls'
      | None => None
      end
  end.

Inductive reachable (p : program) (s0 : state) : state → Prop :=
| reachable_refl : reachable p s0 s0
| reachable_step s l s' :
    reachable p s0 s → step p s l = Some s' → reachable p s0 s'.

Definition initial (t0 : Z) (log : list call) (a : option agg_pc)
    (cs : list (nat * Image)) : state :=
  {| now := t0; request_queue := []; results_map := ∅; events := ∅;
     inflight := []; calls := log; batch_thread := a;
     callers := (λ c, {| ident := c.1; input := c.2; pc := CStart |}) <$> cs |}.

(** ** [init_context] and [handler] *)

Fixpoint repeat_m (n : nat) (m : M result) : M unit :=
  match n with
  | O => ret tt
  | S n' => let* _r := m in repeat_m n' m
  end.

(** The warm-up and the start of the aggregator thread; the value is
    [batch_thread].  Loading the weights is taken to have succeeded. *)
Definition init_context (p : program) : M (option agg_pc) :=
  let* _w :=
    match src p with
    | MainBatch =>
        let dummy_images := replicate (Z.to_nat (BATCH_SIZE p)) white in
        let* inputs := invoke (CallProcessor dummy_images) (processor dummy_images) in
        let* _o := invoke (CallModel inputs) (model inputs) in
        ret tt
    | MainOptimized => repeat_m 3 (_detect_single white)
    end in
  if USE_DYNAMIC_BATCH p then ret (Some ARound) else ret None.

(** The state the process is in when [init_context] has returned at
    time [t0] and the requests [cs] are about to be handled. *)
Definition boot (p : program) (t0 : Z) (cs : list (nat * Image)) : exn + state :=
  match init_context p [] with
  | (inl e, _) => inl e
  | (inr a, log) => inr (initial t0 log a cs)
  end.

(** The parsed request body: the keys the handler looks for. *)
Record body : Type := {
  body_url : option string;
  body_image : option image_data;
  body_images : option (list image_data);
}.

Inductive reply : Type :=
| Data (r : result)
| DataList (batch_size : nat) (rs : list result)
| Failed (e : exn)
| MissingField.

Record response : Type := { status_code : Z; reply_body : reply }.

(** What the handler does with a body once it is decoded. *)
Inductive plan : Type :=
| Queued (image : Image)
| DirectOne (image : Image)
| DirectMany (images : list Image)
| Reply (r : response).

(** The status of the response built in [except Exception]. *)
Definition error_status (p : program) : Z :=
  match src p with
  | MainBatch => 500
  | MainOptimized => 400
  end.

Definition failed (p : program) (e : exn) : response :=
  {| status_code := error_status p; reply_body := Failed e |}.

Fixpoint preprocess_all (ds : list image_data) : exn + list Image :=
  match ds with
  | [] => inr []
  | d :: ds' =>
      match preprocess_image d with
      | inl e => inl e
      | inr im =>
          match preprocess_all ds' with
          | inl e => inl e
          | inr ims => inr (im :: ims)
          end
      end
  end.

Definition one_image (p : program) (batched : bool) (im : exn + Image) : plan :=
  match im with
  | inl e => Reply (failed p e)
  | inr image => if batched then Queued image else DirectOne image
  end.

Definition fetch (u : string) : exn + Image :=
  match requests_get u with
  | inl e => inl e
  | inr d => preprocess_image d
  end.

Definition many_images (p : program) (ds : list image_data) : plan :=
  match preprocess_all ds with
  | inl e => Reply (failed p e)
  | inr images => DirectMany images
  end.

Definition bad_request : response :=
  {| status_code := 400; reply_body := MissingField |}.

Definition handler (p : program) (b : body) : plan :=
  match src p with
  | MainBatch =>
      match body_url b, body_image b, body_images b with
      | Some u, _, _ => one_image p (1 <? BATCH_SIZE p) (fetch u)
      | None, Some d, _ => one_image p (1 <? BATCH_SIZE p) (preprocess_image d)
      | None, None, Some ds => many_images p ds
      | None, None, None => Reply bad_request
      end
  | MainOptimized =>
      match body_image b, body_url b, body_images b with
      | Some d, _, _ => one_image p (USE_DYNAMIC_BATCH p) (preprocess_image d)
      | None, Some u, _ => one_image p false (fetch u)
      | None, None, Some ds => many_images p ds
      | None, None, None => Reply bad_request
      end
  end.

(** The response built from what the detection returned or raised. *)
Definition respond (p : program) (r : exn + result) : response :=
  match r with
  | inr res => {| status_code := 200; reply_body := Data res |}
  | inl e => failed p e
  end.

Definition respond_many (p : program) (r : exn + list result) : response :=
  match r with
  | inr rs => {| status_code := 200; reply_body := DataList (length rs) rs |}
  | inl e => failed p e
  end.

(** ** The handler on its direct paths *)

(** What the handler answers when its plan needs no queue: the
    detection it runs itself and the response built from it.  A queued
    request is answered by its request thread. *)
Definition direct_response (p : program) (pl : plan) :
    option (list call → response * list call) :=
  match pl with
  | Queued _ => None
  | DirectOne image =>
      Some (λ log, let '(r, log') := direct p image log in (respond p r, log'))
  | DirectMany images =>
      Some (λ log, let '(r, log') := _detect_batch images log in (respond_many p r, log'))
  | Reply r => Some (λ log, (r, log))
  end.

(** The items the aggregator has taken from the queue and not yet
    signalled. *)
Definition in_hand (a : agg_pc) : list item :=
  match a with
  | ARound => []
  | ACollect _ batch_items | AGet _ batch_items _ | ADetect _ batch_items => batch_items
  | AStore batch_items _ i | ASet batch_items _ i => drop i batch_items
  | AExcept rest => rest
  end.

(** ** Invariants of the system *)

(** A batch never grows beyond [BATCH_SIZE]; the aggregator only blocks
    in [get] with room left, and only hands a batch with an item in it to
    the model. *)
Definition batch_inv (p : program) (s : state) : Prop :=
  match batch_thread s with
  | Some (ACollect _ batch_items) => Z.of_nat (length batch_items) ≤ BATCH_SIZE p
  | Some (AGet _ batch_items _) => Z.of_nat (length batch_items) < BATCH_SIZE p
  | Some (ADetect _ batch_items) =>
      Z.of_nat (length batch_items) ≤ BATCH_SIZE p ∧ batch_items ≠ []
  | _ => True
  end.

(** With an item collected, the blocking [get] ends less than one
    millisecond after the timer of the round. *)
Definition get_inv (p : program) (s : state) : Prop :=
  match batch_thread s with
  | Some (AGet start_time batch_items deadline) =>
      batch_items ≠ [] →
      deadline < start_time + BATCH_TIMEOUT_MS p * millisecond + millisecond
  | _ => True
  end.

(** A request thread has a detection call under way exactly while it
    stands in its direct detection, and then one call, on its own image. *)
Definition direct_call (i : nat) (c : caller) : list (thread * list Image) :=
  match pc c with
  | CDirect => [(Request i, [input c])]
  | _ => []
  end.

Definition direct_calls_inv (s : state) : Prop :=
  ∀ i, calls_of (Request i) s = from_option (direct_call i) [] (callers s !! i).

(** The item of a waiting request thread is in the queue, in the hands
    of the aggregator, or signalled. *)
Definition kept_inv (s : state) : Prop :=
  ∀ i c it deadline, callers s !! i = Some c → pc c = CWait it deadline →
    it ∈ request_queue s ∨
    (∃ a, batch_thread s = Some a ∧ it ∈ in_hand a) ∨
    event it ∈ events s.


(** The aggregator has a detection call under way exactly while it
    stands inside [_detect_batch], and then only that one. *)
Definition aggregator_calls_inv (s : state) : Prop :=
  calls_of Aggregator s =
    match batch_thread s with
    | Some (ADetect _ batch_items) => [(Aggregator, image <$> batch_items)]
    | _ => []
    end.

(** [start_time] is read at the top of a round; a blocking [get] ends no
    sooner than the timer, and a batch that is not full is only handed
    to the model when the timer is over. *)
Definition timer_inv (p : program) (s : state) : Prop :=
  match batch_thread s with
  | Some (AGet start_time _ deadline) =>
      start_time + BATCH_TIMEOUT_MS p * millisecond ≤ deadline
  | Some (ADetect start_time batch_items) =>
      Z.of_nat (length batch_items) < BATCH_SIZE p →
      start_time + BATCH_TIMEOUT_MS p * millisecond ≤ now s
  | _ => True
  end.


(** Nothing is ever stored, the aggregator never reaches the
    distributing loop, and a request thread only returns an exception. *)
Definition never_distributes (a : option agg_pc) : Prop :=
  match a with
  | Some (ADetect _ batch_items) => batch_items ≠ []
  | Some (AStore _ _ _) | Some (ASet _ _ _) | None => False
  | _ => True
  end.

Definition raises_inv (s : state) : Prop :=
  results_map s = ∅ ∧
  never_distributes (batch_thread s) ∧
  ∀ i c r, callers s !! i = Some c → pc c = CReturn r → ∃ e, r = inl e.

(** No blocking call of a request thread has more than thirty seconds
    left. *)
Definition waits_inv (s : state) : Prop :=
  ∀ i c, callers s !! i = Some c → wait_left (now s) (pc c) ≤ 30 * second.

(** The time-out of the blocking call a request thread is in: five
    seconds for [put], thirty for [event.wait]. *)
Definition block_budget (a : caller_pc) : Z :=
  match a with
  | CPut _ _ => 5 * second
  | CWait _ _ => 30 * second
  | _ => 0
  end.

(** The time-outs a request thread still has before it. *)
Definition time_to_answer (a : caller_pc) : Z :=
  match a with
  | CStart | CPut _ _ => 35 * second
  | CWait _ _ => 30 * second
  | _ => 0
  end.

(** No blocking call of a request thread has more left than its
    time-out. *)
Definition budgets_inv (s : state) : Prop :=
  ∀ i c, callers s !! i = Some c → wait_left (now s) (pc c) ≤ block_budget (pc c).

(** The clock and request thread [i], no other thread. *)
Definition alone (i : nat) (l : label) : Prop :=
  match l with
  | Tick _ => True
  | Run t => t = Request i
  end.

End Detector.

(** ** Concrete collaborators for the scenarios

    Images are numbered, probabilities are per mille, the preprocessor
    hands the images through, and the model calls an image by an odd
    number [nsfw]. *)
Definition scenario_labels : gmap nat string :=
  {[ 0%nat := "normal"%string; 1%nat := "nsfw"%string ]}.

Definition scenario_row (image : nat) : list Z :=
  if Nat.even image then [900; 100] else [100; 900].

Definition working : Collaborators := {|
  Image := nat;
  Inputs := list nat;
  float := Z;
  image_data := nat;
  fltb := Z.ltb;
  round4 := λ x, x;
  processor := λ images, inr images;
  model := λ inputs, inr (scenario_row <$> inputs);
  id2label := scenario_labels;
  preprocess_image := λ d, inr d;
  requests_get := λ _, inr 0%nat;
  white := 0%nat;
|}.

(** The same, with a model that raises on every batch. *)
Definition failing : Collaborators := {|
  Image := nat;
  Inputs := list nat;
  float := Z;
  image_data := nat;
  fltb := Z.ltb;
  round4 := λ x, x;
  processor := λ images, inr images;
  model := λ _, inl (AdapterError "out of memory");
  id2label := scenario_labels;
  preprocess_image := λ d, inr d;
  requests_get := λ _, inr 0%nat;
  white := 0%nat;
|}.

(** The same as [working], with a model that gives a row for the first
    image only. *)
Definition truncating : Collaborators := {|
  Image := nat;
  Inputs := list nat;
  float := Z;
  image_data := nat;
  fltb := Z.ltb;
  round4 := λ x, x;
  processor := λ images, inr images;
  model := λ inputs, inr (scenario_row <$> take 1 inputs);
  id2label := scenario_labels;
  preprocess_image := λ d, inr d;
  requests_get := λ _, inr 0%nat;
  white := 0%nat;
|}.

(** main_batch.py and main_optimized.py with batches of four. *)
Definition batch4 : program :=
  {| src := MainBatch; BATCH_SIZE := 4; BATCH_TIMEOUT_MS := 50; maxsize := 0 |}.


(** *** Three requests at time 0

    The aggregator thread was started 51 ms before; it polls the empty
    queue for the 50 ms of its first timer and for one more millisecond,
    then the three requests arrive together. *)
Definition three_callers : list (nat * Image (Collaborators := working)) :=
  [(1%nat, 11%nat); (2%nat, 12%nat); (3%nat, 13%nat)].

Definition three_requests : state :=
  initial (H := working) (-51000) [] (Some ARound) three_callers.

Definition first_of_three : item (H := working) :=
  @Build_item working (0, 1%nat) 11%nat 0%nat.

Definition idle_then_three : list label :=
  [ Run Aggregator; Run Aggregator; Tick 50000;
    Run Aggregator; Run Aggregator; Tick 1000;
    Run (Request 0); Run (Request 1); Run (Request 2) ].

(** The first of the three has been handed to the model alone; the
    aggregator stores its result and collects again. *)
Definition rest_of_three : list label :=
  replicate 10 (Run Aggregator) ++ [Tick 50000; Run Aggregator].

(** *** One request and a stalled model

    The request is queued at time 0 and collected; after the 50 ms of
    the timer it is handed to the model, which takes more than the
    thirty seconds the request thread waits. *)
Definition one_caller : list (nat * Image (Collaborators := working)) :=
  [(1%nat, 11%nat)].

Definition one_request : state :=
  initial (H := working) 0 [] (Some ARound) one_caller.

Definition until_flush : list label :=
  [ Run (Request 0); Run Aggregator; Run Aggregator; Run Aggregator;
    Run Aggregator; Tick 50000; Run Aggregator ].

Definition until_timeout : list label :=
  until_flush ++ [ Tick 30000000; Run (Request 0) ].

Definition until_overlap : list label :=
  until_timeout ++ [ Run (Request 0) ].


(** The same request with the model that raises. *)
Definition one_request_failing : state (H := failing) :=
  initial (H := failing) 0 [] (Some ARound) [(1%nat, 11%nat)].

(** Two requests with the model that raises: the second is queued while
    the first is under detection. *)
Definition two_requests_failing : state (H := failing) :=
  initial (H := failing) 0 [] (Some ARound) [(1%nat, 11%nat); (2%nat, 12%nat)].

Definition until_second_queued : list label :=
  until_flush ++ [ Run (Request 1) ].

(** Four requests with the model that raises, queued before the
    aggregator looks. *)
Definition four_requests_failing : state (H := failing) :=
  initial (H := failing) 0 [] (Some ARound)
    [(1%nat, 11%nat); (2%nat, 12%nat); (3%nat, 13%nat); (4%nat, 14%nat)].

Definition four_submit : list label :=
  [ Run (Request 0); Run (Request 1); Run (Request 2); Run (Request 3) ].






(** *** Four requests at time 0, queued before the aggregator looks *)
Definition four_callers : list (nat * Image (Collaborators := working)) :=
  [(1%nat, 11%nat); (2%nat, 12%nat); (3%nat, 13%nat); (4%nat, 14%nat)].

Definition four_requests : state :=
  initial (H := working) 0 [] (Some ARound) four_callers.

Definition four_queued : list label :=
  [ Run (Request 0); Run (Request 1); Run (Request 2); Run (Request 3);
    Run Aggregator ].

(** One request, collected, the aggregator blocked in its next [get]. *)
Definition until_second_get : list label :=
  [ Run (Request 0); Run Aggregator; Run Aggregator; Run Aggregator;
    Run Aggregator ].

(** *** Environment and bodies *)
Definition image_body (d : nat) : body (H := working) :=
  @Build_body working None (Some d) None.

Definition images_body (ds : list nat) : body (H := working) :=
  @Build_body working None None (Some ds).

(** The constants of the two modules when no variable is set. *)
Definition batch_default : program :=
  {| src := MainBatch; BATCH_SIZE := 4; BATCH_TIMEOUT_MS := 10; maxsize := 0 |}.

Definition optimized_default : program :=
  {| src := MainOptimized; BATCH_SIZE := 1; BATCH_TIMEOUT_MS := 50; maxsize := 100 |}.

(** * Properties *)

Section Properties.

Context `{Collaborators}.

(** ** [_detect_batch] *)

(** C10: the batch detection applied to the empty list of images returns
    the empty list and leaves the call log as it was: neither the
    preprocessor nor the model is invoked. *)
Theorem detect_batch_empty (log : list call) :
  _detect_batch [] log = (inr [], log).
Proof. reflexivity. Qed.

Lemma collect_rows_spec (probabilities : list (list float)) (n k : nat) :
  ∀ (acc rs : list result),
    collect_rows probabilities (seq k n) acc = inr rs →
    length rs = (length acc + n)%nat ∧
    (∀ i, (i < length acc)%nat → rs !! i = acc !! i) ∧
    (∀ j, (j < n)%nat →
       ∃ probs r, probabilities !! (k + j)%nat = Some probs ∧
                  row_result probs = inr r ∧
                  rs !! (length acc + j)%nat = Some r).
Proof.
  revert k. induction n as [|n IH]; intros k acc rs Hc; simpl in Hc.
  - injection Hc as <-. split; [lia|]. split; [done|]. intros j Hj. lia.
  - destruct (probabilities !! k) as [probs|] eqn:Hk; [|done].
    destruct (row_result probs) as [e|r] eqn:Hr; [done|].
    apply IH in Hc as (Hlen & Hpre & Hrows).
    rewrite length_app in Hlen, Hpre, Hrows. simpl in *.
    split; [lia|]. split.
    + intros i Hi. rewrite Hpre by lia. by rewrite lookup_app_l.
    + intros [|j] Hj.
      * exists probs, r. rewrite Nat.add_0_r. split; [done|]. split; [done|].
        rewrite Hpre by lia.
        rewrite Nat.add_0_r, lookup_app_r by lia.
        by rewrite Nat.sub_diag.
      * destruct (Hrows j ltac:(lia)) as (probs' & r' & H1 & H2 & H3).
        exists probs', r'.
        replace (k + S j)%nat with (S k + j)%nat by lia.
        replace (length acc + S j)%nat with (length acc + 1 + j)%nat by lia.
        done.
Qed.

(** Inside [_detect_batch]: when it returns, it returns one result per
    image, and result [i] is built from row [i] of the probabilities the
    model gave for these images. *)
Lemma detect_batch_rows (images : list Image) (log log' : list call)
    (results : list result) :
  _detect_batch images log = (inr results, log') →
  length results = length images ∧
  ∀ i, (i < length images)%nat →
    ∃ inputs probabilities probs r,
      processor images = inr inputs ∧ model inputs = inr probabilities ∧
      probabilities !! i = Some probs ∧ row_result probs = inr r ∧
      results !! i = Some r.
Proof.
  destruct images as [|im images].
  - intros [= <- <-]. split; [done|]. simpl. lia.
  - unfold _detect_batch, bind, invoke, lift.
    destruct (processor (im :: images)) as [e|inputs] eqn:Hp; [done|].
    destruct (model inputs) as [e|probabilities] eqn:Hm; [done|].
    intros [= Hc <-].
    apply (collect_rows_spec probabilities (length (im :: images)) 0 []) in Hc
      as (Hlen & _ & Hrows).
    split; [done|]. intros i Hi.
    destruct (Hrows i Hi) as (probs & r & H1 & H2 & H3).
    by exists inputs, probabilities, probs, r.
Qed.

(** The distributing loop run without interruption from [AStore] at
    index [i]: every remaining item gets the result at its own index and
    has its event set, the other entries are left alone. *)
Lemma distribute_run (p : program) (batch_items : list item) (results : list result) :
  length results = length batch_items →
  ∀ (k i : nat) (s : state),
    (i + k = length batch_items)%nat →
    NoDup (request_id <$> drop i batch_items) →
    batch_thread s = Some (AStore batch_items results i) →
    ∃ s', run p s (replicate (2 * k + 1) (Run Aggregator)) = Some s' ∧
          batch_thread s' = Some ARound ∧
          (∀ j it, (i ≤ j)%nat → batch_items !! j = Some it →
             results_map s' !! request_id it = results !! j ∧
             event it ∈ events s') ∧
          (∀ rid, rid ∉ request_id <$> drop i batch_items →
             results_map s' !! rid = results_map s !! rid) ∧
          events s ⊆ events s'.
Proof.
  intros Hlen k. induction k as [|k IH]; intros i s Hik Hnd Hpc.
  - exists (set_agg ARound s). simpl. rewrite Hpc. simpl.
    assert (batch_items !! i = None) as Hi by (apply lookup_ge_None; lia).
    rewrite Hi. split; [done|]. split; [done|]. split.
    + intros j it Hj Hit. apply lookup_lt_Some in Hit. lia.
    + split; [done|set_solver].
  - destruct (lookup_lt_is_Some_2 batch_items i ltac:(lia)) as [it Hit].
    destruct (lookup_lt_is_Some_2 results i ltac:(lia)) as [r Hr].
    rewrite (drop_S _ _ _ Hit), fmap_cons in Hnd.
    apply NoDup_cons in Hnd as [Hfresh Hnd].
    set (s1 := set_agg (ASet batch_items results i)
                 (set_results (<[request_id it := r]> (results_map s)) s)).
    set (s2 := set_agg (AStore batch_items results (S i))
                 (set_events ({[event it]} ∪ events s1) s1)).
    destruct (IH (S i) s2 ltac:(lia) Hnd eq_refl)
      as (s' & Hrun & Hround & Hdel & Hframe & Hev).
    exists s'. replace (2 * S k + 1)%nat with (S (S (2 * k + 1))) by lia.
    cbn [replicate run step]. rewrite Hpc. cbn [agg_step]. rewrite Hit, Hr.
    fold s1. cbn [step]. change (batch_thread s1) with (Some (ASet batch_items results i)).
    cbn [agg_step]. rewrite Hit. fold s2.
    split; [done|]. split; [done|]. split; [|split].
    + intros j jt Hj Hjt. destruct (decide (j = i)) as [->|Hne].
      * rewrite Hit in Hjt. injection Hjt as <-. split.
        -- rewrite Hframe by done. simpl. by rewrite lookup_insert_eq.
        -- apply Hev. simpl. by apply elem_of_union_l, elem_of_singleton.
      * apply Hdel; [lia|done].
    + intros rid Hrid. rewrite (drop_S _ _ _ Hit), fmap_cons in Hrid.
      apply not_elem_of_cons in Hrid as [Hne Hrid].
      rewrite Hframe by done. simpl. by rewrite lookup_insert_ne.
    + etrans; [|exact Hev]. simpl. apply union_subseteq_r.
Qed.

(** C6: when the batch detection called by the aggregator returns, it
    returns one result per item of the batch, result [i] is built from
    row [i] of the probabilities the model gave for the batch, and the
    distributing loop stores result [i] under the request id of item [i]
    and sets that item's event, the request ids of a batch being
    distinct. *)
Theorem batch_order_preserved (p : program) (s : state) (start_time : Z)
    (batch_items : list item) (results : list result) (log : list call) :
  batch_thread s = Some (ADetect start_time batch_items) →
  _detect_batch (image <$> batch_items) (calls s) = (inr results, log) →
  NoDup (request_id <$> batch_items) →
  length results = length batch_items ∧
  ∃ s', run p s (replicate (2 * length batch_items + 2) (Run Aggregator)) = Some s' ∧
        batch_thread s' = Some ARound ∧
        ∀ i it, batch_items !! i = Some it →
          ∃ inputs probabilities probs r,
            processor (image <$> batch_items) = inr inputs ∧
            model inputs = inr probabilities ∧
            probabilities !! i = Some probs ∧
            row_result probs = inr r ∧
            results !! i = Some r ∧
            results_map s' !! request_id it = Some r ∧
            event it ∈ events s'.
Proof.
  intros Hpc Hdet Hnd.
  destruct (detect_batch_rows _ _ _ _ Hdet) as [Hlen Hrows].
  rewrite length_fmap in Hlen, Hrows. split; [done|].
  set (s1 := set_agg (AStore batch_items results 0) (set_calls log (leave Aggregator s))).
  destruct (distribute_run p batch_items results Hlen (length batch_items) 0 s1
              eq_refl Hnd eq_refl) as (s' & Hrun & Hround & Hdel & _ & _).
  exists s'. replace (2 * length batch_items + 2)%nat
    with (S (2 * length batch_items + 1)) by lia.
  cbn [replicate run step]. rewrite Hpc. cbn [agg_step]. rewrite Hdet. fold s1.
  split; [done|]. split; [done|].
  intros i it Hit.
  destruct (Hrows i) as (inputs & probabilities & probs & r & H1 & H2 & H3 & H4 & H5).
  { by apply lookup_lt_Some in Hit. }
  destruct (Hdel i it ltac:(lia) Hit) as [Hmap Hev].
  exists inputs, probabilities, probs, r. rewrite Hmap. done.
Qed.

(** ** Runs and reachable states *)

Lemma reachable_trans (p : program) (s0 s1 s2 : state) :
  reachable p s0 s1 → reachable p s1 s2 → reachable p s0 s2.
Proof.
  intros H01 H12. induction H12 as [|s l s' _ IH Hstep]; [done|].
  by eapply reachable_step.
Qed.

Lemma run_reachable (p : program) (ls : list label) :
  ∀ s s', run p s ls = Some s' → reachable p s s'.
Proof.
  induction ls as [|l ls IH]; intros s s' Hrun; simpl in Hrun.
  - injection Hrun as <-. constructor.
  - destruct (step p s l) as [s1|] eqn:Hstep; [|done].
    eapply reachable_trans; [|by apply IH].
    eapply reachable_step; [constructor|done].
Qed.

(** Case analysis of one step into the moves of the two kinds of thread. *)
Ltac step_cases Hstep :=
  unfold step, agg_step, caller_step, after_collect, start_direct, enqueue in Hstep;
  repeat case_match; simplify_eq; simpl in *.

Lemma reachable_invariant (p : program) (P : state → Prop) (s0 s : state) :
  (∀ s s' l, step p s l = Some s' → P s → P s') →
  P s0 → reachable p s0 s → P s.
Proof.
  intros Hstep H0 Hreach. induction Hreach; [done|]. by eapply Hstep.
Qed.

(** Boolean tests of the code as propositions. *)
Ltac tests :=
  repeat match goal with
         | Ht : (_ <? _) = true |- _ => apply Z.ltb_lt in Ht
         | Ht : (_ <? _) = false |- _ => apply Z.ltb_ge in Ht
         | Ht : (_ <=? _) = true |- _ => apply Z.leb_le in Ht
         | Ht : (_ <=? _) = false |- _ => apply Z.leb_gt in Ht
         | Ht : (_ <? _)%nat = true |- _ => apply Nat.ltb_lt in Ht
         | Ht : (_ <? _)%nat = false |- _ => apply Nat.ltb_ge in Ht
         | Ht : _ && _ = true |- _ => apply andb_true_iff in Ht as [? ?]
         | Ht : _ && _ = false |- _ => apply andb_false_iff in Ht as [?|?]
         | Ht : _ || _ = true |- _ => apply orb_true_iff in Ht as [?|?]
         | Ht : _ || _ = false |- _ => apply orb_false_iff in Ht as [? ?]
         end.

(** ** Runs of the aggregator *)

Lemma run_app (p : program) (ls1 ls2 : list label) :
  ∀ s, run p s (ls1 ++ ls2) = run p s ls1 ≫= λ s', run p s' ls2.
Proof.
  induction ls1 as [|l ls1 IH]; intros s; [done|].
  simpl. destruct (step p s l); [apply IH|done].
Qed.

(** The collecting loop with enough items in the queue to fill the
    batch, its timer still running. *)
Lemma collect_run (p : program) (start_time : Z) (q : list item) :
  0 < BATCH_SIZE p →
  ∀ (items batch_items : list item) (s : state),
    batch_thread s = Some (ACollect start_time batch_items) →
    request_queue s = items ++ q →
    Z.of_nat (length batch_items + length items) = BATCH_SIZE p →
    now s < start_time + BATCH_TIMEOUT_MS p * millisecond →
    ∃ s', run p s (replicate (2 * length items + 1) (Run Aggregator)) = Some s' ∧
          batch_thread s' = Some (ADetect start_time (batch_items ++ items)) ∧
          now s' = now s ∧ request_queue s' = q ∧
          callers s' = callers s ∧ results_map s' = results_map s ∧
          inflight s' = inflight s ++ [(Aggregator, image <$> (batch_items ++ items))].
Proof.
  intros Hbs. induction items as [|it items IH]; intros batch_items s Hpc Hq Hlen Hnow.
  - rewrite app_nil_r. simpl in Hlen. rewrite Nat.add_0_r in Hlen.
    eexists. cbn [length Nat.mul Nat.add replicate run step]. rewrite Hpc.
    cbn [agg_step].
    replace (Z.of_nat (length batch_items) <? BATCH_SIZE p) with false
      by (symmetry; apply Z.ltb_ge; lia).
    unfold after_collect. destruct batch_items as [|b bs]; [simpl in Hlen; lia|].
    done.
  - set (s1 := set_agg (ACollect start_time (batch_items ++ [it])) (set_queue (items ++ q) s)).
    destruct (IH (batch_items ++ [it]) s1) as (s' & Hrun & Hpc' & Hnow' & Hq' & Hcs & Hmap & Hfl);
      [done|done|rewrite length_app; simpl in *; lia|done|].
    exists s'. replace (2 * length (it :: items) + 1)%nat
      with (S (S (2 * length items + 1))) by (simpl; lia).
    cbn [replicate run step]. rewrite Hpc. cbn [agg_step].
    replace (Z.of_nat (length batch_items) <? BATCH_SIZE p) with true
      by (symmetry; apply Z.ltb_lt; simpl in Hlen; lia).
    replace (BATCH_TIMEOUT_MS p * millisecond - (now s - start_time) <=? 0)
      with false by (symmetry; apply Z.leb_gt; lia).
    cbn [andb step batch_thread set_agg agg_step request_queue].
    rewrite Hq. cbn [app]. fold s1. rewrite <- app_assoc in Hpc', Hfl.
    done.
Qed.

(** ** The intake queue *)




(** ** Detection calls under way *)

Lemma filter_left (t : thread) (l : list (thread * list Image)) :
  filter (λ e, e.1 = t) (filter (λ e, e.1 ≠ t) l) = [].
Proof.
  induction l as [|e l IH]; [done|].
  rewrite (filter_cons (λ e, e.1 ≠ t)). case_decide; [|done].
  by rewrite filter_cons_False.
Qed.

Lemma filter_left_other (t t' : thread) (l : list (thread * list Image)) :
  t ≠ t' →
  filter (λ e, e.1 = t) (filter (λ e, e.1 ≠ t') l) = filter (λ e, e.1 = t) l.
Proof.
  intros Hne. induction l as [|e l IH]; [done|].
  rewrite (filter_cons (λ e, e.1 ≠ t')). case_decide as He.
  - rewrite !filter_cons. case_decide; by rewrite IH.
  - rewrite filter_cons_False; [done|]. intros Heq. apply Hne. destruct (decide (e.1 = t')); [congruence|tauto].
Qed.

Lemma step_aggregator_calls (p : program) (s s' : state) (l : label) :
  step p s l = Some s' → aggregator_calls_inv s → aggregator_calls_inv s'.
Proof.
  unfold aggregator_calls_inv, calls_of. intros Hstep Hinv.
  step_cases Hstep;
    repeat match goal with
           | Hb : batch_thread _ = _ |- _ => rewrite Hb in *; clear Hb
           end;
    rewrite ?filter_app, ?filter_left, ?filter_left_other by done;
    rewrite ?Hinv; simplify_eq; try done;
    rewrite ?filter_cons_True, ?filter_cons_False, ?filter_nil, ?app_nil_r by done;
    done.
Qed.

(** C4 (as amended): the aggregator thread never has more than one
    detection call under way, and it has one only while it stands inside
    [_detect_batch] for the batch it collected. *)
Theorem aggregator_single_flight (p : program) (t0 : Z) (log : list call)
    (cs : list (nat * Image)) (s : state) :
  reachable p (initial t0 log (Some ARound) cs) s →
  (length (calls_of Aggregator s) ≤ 1)%nat ∧
  (calls_of Aggregator s ≠ [] →
     ∃ start_time batch_items,
       batch_thread s = Some (ADetect start_time batch_items) ∧
       calls_of Aggregator s = [(Aggregator, image <$> batch_items)]).
Proof.
  intros Hreach.
  assert (aggregator_calls_inv s) as Hinv.
  { by eapply reachable_invariant; [apply step_aggregator_calls| |exact Hreach]. }
  unfold aggregator_calls_inv in Hinv.
  destruct (batch_thread s) as [[]|]; rewrite Hinv; simpl;
    (split; [lia|]); try done.
  intros _. eauto.
Qed.

(** ** The flush timer *)

Lemma step_timer (p : program) (s s' : state) (l : label) :
  step p s l = Some s' → timer_inv p s → timer_inv p s'.
Proof.
  unfold timer_inv. intros Hstep Hinv.
  step_cases Hstep;
    repeat match goal with
           | Hb : batch_thread _ = _ |- _ => rewrite Hb in *; clear Hb
           end;
    simplify_eq; try done; unfold millisecond in *; cbn [length] in *; tests; lia.
Qed.

(** C2 (as amended): the flush timer runs from the top of the round,
    where [start_time] is read with the batch still empty; a batch with
    fewer than [BATCH_SIZE] items is handed to the model no sooner than
    [BATCH_TIMEOUT_MS] after that reading; and an aggregator whose timer
    is already over when the first item comes hands this item to the
    model alone, at once. *)
Theorem flush_timer_runs_from_round_start (p : program) (t0 : Z)
    (log : list call) (cs : list (nat * Image)) (s : state) :
  reachable p (initial t0 log (Some ARound) cs) s →
  (batch_thread s = Some ARound →
     step p s (Run Aggregator) = Some (set_agg (ACollect (now s) []) s)) ∧
  (∀ start_time batch_items,
     batch_thread s = Some (ADetect start_time batch_items) →
     Z.of_nat (length batch_items) < BATCH_SIZE p →
     start_time + BATCH_TIMEOUT_MS p * millisecond ≤ now s) ∧
  (∀ start_time deadline it q,
     batch_thread s = Some (AGet start_time [] deadline) →
     request_queue s = it :: q →
     1 < BATCH_SIZE p →
     start_time + BATCH_TIMEOUT_MS p * millisecond ≤ now s →
     ∃ s', run p s [Run Aggregator; Run Aggregator] = Some s' ∧
           batch_thread s' = Some (ADetect start_time [it]) ∧
           now s' = now s ∧ request_queue s' = q).
Proof.
  intros Hreach. split; [|split].
  - intros Hpc. simpl. by rewrite Hpc.
  - intros start_time batch_items Hpc Hlen.
    assert (timer_inv p s) as Hinv.
    { by eapply reachable_invariant; [apply step_timer| |exact Hreach]. }
    unfold timer_inv in Hinv. rewrite Hpc in Hinv. auto.
  - intros start_time deadline it q Hpc Hq Hbs Hover.
    eexists. cbn [run step]. rewrite Hpc. cbn [agg_step]. rewrite Hq.
    cbn [step batch_thread set_agg app length agg_step now set_queue].
    replace (Z.of_nat 1 <? BATCH_SIZE p) with true
      by (symmetry; apply Z.ltb_lt; lia).
    replace (BATCH_TIMEOUT_MS p * millisecond - (now s - start_time) <=? 0)
      with true by (symmetry; apply Z.leb_le; lia).
    simpl. done.
Qed.

(** ** A batch whose detection raises *)

(** The [except Exception] loop run without interruption: it sets the
    event of every item left and writes nothing. *)
Lemma except_run (p : program) :
  ∀ (rest : list item) (s : state),
    batch_thread s = Some (AExcept rest) →
    ∃ s', run p s (replicate (length rest + 1) (Run Aggregator)) = Some s' ∧
          batch_thread s' = Some ARound ∧
          results_map s' = results_map s ∧
          request_queue s' = request_queue s ∧
          callers s' = callers s ∧
          now s' = now s ∧
          events s ⊆ events s' ∧
          ∀ it, it ∈ rest → event it ∈ events s'.
Proof.
  induction rest as [|it rest IH]; intros s Hpc.
  - exists (set_agg ARound s). simpl. rewrite Hpc. simpl.
    repeat (split; [done|]). intros it Hit. by apply elem_of_nil in Hit.
  - set (s1 := set_agg (AExcept rest) (set_events ({[event it]} ∪ events s) s)).
    destruct (IH s1 eq_refl) as (s' & Hrun & Hround & Hmap & Hq & Hcs & Hnow & Hsub & Hev).
    exists s'. cbn [length Nat.add replicate run step]. rewrite Hpc.
    cbn [agg_step]. fold s1. split; [exact Hrun|].
    repeat (split; [done|]). split.
    + intros ev Hin. apply Hsub. simpl. by apply elem_of_union_r.
    + intros it' [->|Hin]%elem_of_cons; [|by apply Hev].
      apply Hsub. simpl. by apply elem_of_union_l, elem_of_singleton.
Qed.

Lemma detect_run_failed (p : program) (s : state) (start_time : Z)
    (batch_items : list item) (e : exn) (log : list call) :
  batch_thread s = Some (ADetect start_time batch_items) →
  _detect_batch (image <$> batch_items) (calls s) = (inl e, log) →
  ∃ s', run p s (replicate (length batch_items + 2) (Run Aggregator)) = Some s' ∧
        batch_thread s' = Some ARound ∧
        results_map s' = results_map s ∧
        request_queue s' = request_queue s ∧
        callers s' = callers s ∧
        now s' = now s ∧
        ∀ it, it ∈ batch_items → event it ∈ events s'.
Proof.
  intros Hpc Hdet.
  set (s1 := set_agg (AExcept batch_items) (set_calls log (leave Aggregator s))).
  destruct (except_run p batch_items s1 eq_refl)
    as (s' & Hrun & Hround & Hmap & Hq & Hcs & Hnow & _ & Hev).
  exists s'. replace (length batch_items + 2)%nat
    with (S (length batch_items + 1)) by lia.
  cbn [replicate run step]. rewrite Hpc. cbn [agg_step]. rewrite Hdet. fold s1.
  done.
Qed.

(** C1 (what the code does): when the detection of a flushed batch
    raises, the aggregator sets the event of every item of the batch and
    leaves [results_map] as it was, so no failure marker is stored; a
    request thread of the batch that had no entry is woken, pops
    nothing and starts a detection of its own. *)
Theorem failed_batch_stores_no_marker (p : program) (s : state) (start_time : Z)
    (batch_items : list item) (e : exn) (log : list call) :
  batch_thread s = Some (ADetect start_time batch_items) →
  _detect_batch (image <$> batch_items) (calls s) = (inl e, log) →
  ∃ s', run p s (replicate (length batch_items + 2) (Run Aggregator)) = Some s' ∧
        batch_thread s' = Some ARound ∧
        results_map s' = results_map s ∧
        (∀ it, it ∈ batch_items → event it ∈ events s') ∧
        ∀ i c it deadline,
          callers s !! i = Some c → pc c = CWait it deadline →
          it ∈ batch_items → results_map s !! request_id it = None →
          ∃ s'', run p s' [Run (Request i); Run (Request i)] = Some s'' ∧
                 results_map s'' = results_map s ∧
                 pc <$> callers s'' !! i = Some CDirect.
Proof.
  intros Hpc Hdet.
  destruct (detect_run_failed p s start_time batch_items e log Hpc Hdet)
    as (s' & Hrun & Hround & Hmap & _ & Hcs & _ & Hev).
  exists s'. repeat (split; [done|]).
  intros i c it deadline Hc Hwait Hin Hnone.
  assert (i < length (callers s'))%nat as Hi.
  { rewrite Hcs. by eapply lookup_lt_Some. }
  eexists. cbn [run step]. rewrite Hcs, Hc. unfold caller_step at 1.
  rewrite Hwait. rewrite bool_decide_eq_true_2 by by apply Hev.
  cbn [orb step callers set_pc].
  rewrite list_lookup_insert_eq by done.
  unfold caller_step. cbn [pc results_map set_pc]. rewrite Hmap, Hnone.
  split; [done|]. split; [done|].
  unfold start_direct. cbn [callers set_pc enter set_inflight].
  rewrite list_lookup_insert_eq; [done|]. by rewrite length_insert.
Qed.

(** ** The direct path of a request thread *)

(** [_detect_single(image)] is the detection of the batch [[image]]
    followed by [[0]]. *)
Lemma detect_single_batch_of_one (image : Image) (log : list call) :
  _detect_single image log = bind (_detect_batch [image]) (λ rs, lift (first rs)) log.
Proof.
  unfold _detect_single, _detect_batch, bind, invoke, lift.
  destruct (processor [image]) as [e|inputs]; [done|].
  destruct (model inputs) as [e|probabilities]; [done|].
  simpl. destruct (probabilities !! 0%nat) as [probs|]; [|done].
  by destruct (row_result probs).
Qed.

Lemma direct_batch_of_one (p : program) (image : Image) (log : list call) :
  direct p image log = bind (_detect_batch [image]) (λ rs, lift (first rs)) log.
Proof.
  unfold direct. destruct (src p); [done|]. apply detect_single_batch_of_one.
Qed.

(** C5: a request thread whose [put] is refused (the queue is still
    full when its budget is over), or whose wait ends by its timeout with
    no result stored, or that pops no result after its wait, enters a
    detection of the one-item batch holding its own input; when that
    call ends the thread returns what it gave, the first result or the
    exception it raised, which the handler turns into a response. *)
Theorem fallback_answers (p : program) (s : state) (i : nat) (c : caller)
    (it : item) (deadline : Z) :
  callers s !! i = Some c →
  (pc c = CPut it deadline ∧ full p (request_queue s) = true ∧ deadline ≤ now s) ∨
  (pc c = CWait it deadline ∧ deadline ≤ now s ∧
   results_map s !! request_id it = None) ∨
  (pc c = CPop it ∧ results_map s !! request_id it = None) →
  ∃ n s1, run p s (replicate n (Run (Request i))) = Some s1 ∧
        request_queue s1 = request_queue s ∧
        inflight s1 = inflight s ++ [(Request i, [input c])] ∧
        callers s1 !! i = Some {| ident := ident c; input := input c; pc := CDirect |} ∧
        ∀ s2, callers s2 !! i = callers s1 !! i →
          ∃ s3 r, step p s2 (Run (Request i)) = Some s3 ∧
                  callers s3 !! i =
                    Some {| ident := ident c; input := input c; pc := CReturn r |} ∧
                  r = (bind (_detect_batch [input c]) (λ rs, lift (first rs)) (calls s2)).1 ∧
                  (status_code (respond p r) = 200 ∨
                   status_code (respond p r) = error_status p).
Proof.
  intros Hc Hcase.
  assert (i < length (callers s))%nat as Hi by by eapply lookup_lt_Some.
  assert (∃ n s1, run p s (replicate n (Run (Request i))) = Some s1 ∧
            request_queue s1 = request_queue s ∧
            inflight s1 = inflight s ++ [(Request i, [input c])] ∧
            callers s1 !! i =
              Some {| ident := ident c; input := input c; pc := CDirect |})
    as (n & s1 & Hrun & Hq & Hfl & Hc1).
  { destruct Hcase as [(Hpc & Hfull & Hle)|[(Hpc & Hle & Hnone)|[Hpc Hnone]]].
    - exists 1%nat, (start_direct i c s). cbn [replicate run step].
      rewrite Hc. unfold caller_step. rewrite Hpc, Hfull.
      apply Z.leb_le in Hle. rewrite Hle. split; [done|].
      split; [done|]. split; [done|].
      unfold start_direct. cbn [callers set_pc enter set_inflight].
      by rewrite list_lookup_insert_eq.
    - eexists 2%nat, _. cbn [replicate run step].
      rewrite Hc. unfold caller_step at 1. rewrite Hpc.
      apply Z.leb_le in Hle. rewrite Hle, orb_true_r.
      cbn [step callers set_pc]. rewrite list_lookup_insert_eq by done.
      unfold caller_step. cbn [pc results_map set_pc]. rewrite Hnone.
      split; [done|]. split; [done|]. split; [done|].
      unfold start_direct. cbn [callers set_pc enter set_inflight].
      rewrite list_lookup_insert_eq; [done|]. by rewrite length_insert.
    - exists 1%nat, (start_direct i c s). cbn [replicate run step].
      rewrite Hc. unfold caller_step. rewrite Hpc, Hnone. split; [done|].
      split; [done|]. split; [done|].
      unfold start_direct. cbn [callers set_pc enter set_inflight].
      by rewrite list_lookup_insert_eq. }
  exists n, s1. repeat (split; [done|]).
  intros s2 Hc2. rewrite Hc1 in Hc2.
  assert (i < length (callers s2))%nat as Hi2 by by eapply lookup_lt_Some.
  cbn [step]. rewrite Hc2. unfold caller_step. cbn [pc input ident].
  rewrite direct_batch_of_one.
  destruct (bind (_detect_batch [input c]) (λ rs, lift (first rs)) (calls s2))
    as [r log'] eqn:Hdirect.
  eexists _, r. split; [done|]. split.
  - cbn [callers set_pc]. by rewrite list_lookup_insert_eq.
  - split; [done|]. destruct r; simpl; auto.
Qed.

(** ** Entries of [results_map] *)

(** Which thread of the list an updated lookup talks about. *)
Ltac caller_at :=
  match goal with
  | Hj : <[?i := _]> ?l !! ?j = Some _ |- _ =>
      destruct (decide (i = j)) as [->|?];
      [ rewrite list_lookup_insert_eq in Hj by (eapply lookup_lt_Some; eassumption);
        simplify_eq
      | rewrite list_lookup_insert_ne in Hj by done ]
  end.










(** ** A model that always raises *)

Section AlwaysFails.

Hypothesis model_raises : ∀ inputs, ∃ e, model inputs = inl e.

Lemma detect_batch_raises (images : list Image) (log : list call) :
  images ≠ [] → ∃ e log', _detect_batch images log = (inl e, log').
Proof.
  intros Hne. destruct images as [|im images]; [done|].
  unfold _detect_batch, bind, invoke.
  destruct (processor (im :: images)) as [e|inputs]; [by eauto|].
  destruct (model_raises inputs) as [e ->]. by eauto.
Qed.

Lemma direct_raises (p : program) (image : Image) (log : list call) :
  ∃ e log', direct p image log = (inl e, log').
Proof.
  rewrite direct_batch_of_one. unfold bind.
  destruct (detect_batch_raises [image] log) as (e & log' & ->); [done|].
  by eauto.
Qed.

Lemma step_raises (p : program) (s s' : state) (l : label) :
  step p s l = Some s' → raises_inv s → raises_inv s'.
Proof.
  intros Hstep (Hmap & Hagg & Hret).
  unfold step, agg_step, caller_step in Hstep.
  destruct l as [d|[|i]].
  - case_match; simplify_eq. done.
  - destruct (batch_thread s) as [a|] eqn:Ha; [|done].
    destruct a; unfold after_collect in Hstep;
      repeat case_match; simplify_eq; try done;
      repeat split; simpl; try done.
    all: try (by destruct Hagg).
    match goal with
    | Hd : _detect_batch _ _ = (inr _, _) |- _ =>
        destruct (detect_batch_raises (image <$> batch_items) (calls s))
          as (e & log' & He); [by destruct batch_items|congruence]
    end.
  - destruct (callers s !! i) as [c|] eqn:Hc; [|done].
    unfold start_direct, enqueue in Hstep.
    destruct (pc c) eqn:Hpc; repeat case_match; simplify_eq;
      try (rewrite Hmap in *; by rewrite lookup_empty in *);
      (split; [done|]); (split; [done|]);
      intros j cj r Hj Hr; simpl in Hj; caller_at; simpl in *;
      simplify_eq; try (by eapply Hret).
    match goal with
    | Hd : direct _ _ _ = _ |- _ =>
        destruct (direct_raises p (input c) (calls s)) as (e & log' & He);
        rewrite He in Hd; simplify_eq; by eauto
    end.
Qed.

Lemma reachable_raises (p : program) (t0 : Z) (log : list call)
    (cs : list (nat * Image)) (s : state) :
  reachable p (initial t0 log (Some ARound) cs) s → raises_inv s.
Proof.
  intros Hreach. eapply reachable_invariant; [apply step_raises| |exact Hreach].
  split; [done|]. split; [done|].
  intros i c r Hc Hr. simpl in Hc. rewrite list_lookup_fmap in Hc.
  destruct (cs !! i); simplify_eq/=.
Qed.

End AlwaysFails.

(** ** Bounded waits *)

Lemma wait_left_later (t d : Z) (a : caller_pc) :
  0 ≤ d → wait_left (t + d) a ≤ wait_left t a.
Proof. intros Hd. destruct a; simpl; lia. Qed.

Lemma step_waits (p : program) (s s' : state) (l : label) :
  step p s l = Some s' → waits_inv s → waits_inv s'.
Proof.
  intros Hstep Hinv j cj Hj. unfold waits_inv in Hinv.
  unfold step, agg_step, caller_step, after_collect, start_direct, enqueue in Hstep.
  destruct l as [d|[|i]].
  - case_match; simplify_eq. simpl in *. tests.
    etrans; [by apply wait_left_later|]. by eapply Hinv.
  - repeat case_match; simplify_eq; by eapply Hinv.
  - destruct (callers s !! i) as [c|] eqn:Hc; [|done].
    destruct (pc c) eqn:Hpc; repeat case_match; simplify_eq;
      simpl in Hj; caller_at; try (by eapply Hinv);
      simpl; unfold second; lia.
Qed.

(** A request thread that has not returned moves on, to a later stage,
    as soon as what is left of its blocking call has passed. *)
Lemma caller_moves (p : program) (s : state) (i : nat) (c : caller) :
  callers s !! i = Some c → (stage (pc c) < 5)%nat →
  ∃ s' c', run p s [Tick (wait_left (now s) (pc c)); Run (Request i)] = Some s' ∧
           now s' = now s + wait_left (now s) (pc c) ∧
           callers s' !! i = Some c' ∧ (stage (pc c) < stage (pc c'))%nat.
Proof.
  intros Hc Hstage.
  assert (i < length (callers s))%nat as Hi by by eapply lookup_lt_Some.
  assert (0 ≤ wait_left (now s) (pc c)) as Hd by (destruct (pc c); simpl; lia).
  cbn [run step]. apply Z.leb_le in Hd as Hd'. rewrite Hd'.
  cbn [callers set_now]. rewrite Hc. unfold caller_step, start_direct, enqueue.
  destruct (pc c) as [|it dl|it dl|it| |r] eqn:Hpc; cbn [wait_left stage] in *;
    cbn [now set_now request_queue results_map events calls inflight].
  - destruct (full p (request_queue s));
      eexists _, _; (split; [done|]); (split; [done|]); cbn [callers set_pc set_queue];
      (split; [by apply list_lookup_insert_eq|]); simpl; lia.
  - replace (dl <=? now s + Z.max 0 (dl - now s)) with true
      by (symmetry; apply Z.leb_le; lia).
    destruct (full p (request_queue s));
      eexists _, _; (split; [done|]); (split; [done|]);
      cbn [callers set_pc set_queue enter set_inflight];
      (split; [by apply list_lookup_insert_eq|]); simpl; lia.
  - replace (dl <=? now s + Z.max 0 (dl - now s)) with true
      by (symmetry; apply Z.leb_le; lia).
    rewrite orb_true_r.
    eexists _, _; (split; [done|]); (split; [done|]); cbn [callers set_pc];
      (split; [by apply list_lookup_insert_eq|]); simpl; lia.
  - destruct (results_map s !! request_id it);
      eexists _, _; (split; [done|]); (split; [done|]);
      cbn [callers set_pc set_results enter set_inflight];
      (split; [by apply list_lookup_insert_eq|]); simpl; lia.
  - destruct (direct p (input c) (calls s)) as [r log'].
    eexists _, _; (split; [done|]); (split; [done|]);
      cbn [callers set_pc set_calls leave set_inflight];
      (split; [by apply list_lookup_insert_eq|]); simpl; lia.
  - simpl in Hstage. lia.
Qed.

Lemma step_budgets (p : program) (s s' : state) (l : label) :
  step p s l = Some s' → budgets_inv s → budgets_inv s'.
Proof.
  intros Hstep Hinv j cj Hj. unfold budgets_inv in Hinv.
  unfold step, agg_step, caller_step, after_collect, start_direct, enqueue in Hstep.
  destruct l as [d|[|i]].
  - case_match; simplify_eq. simpl in *. tests.
    etrans; [by apply wait_left_later|]. by eapply Hinv.
  - repeat case_match; simplify_eq; by eapply Hinv.
  - destruct (callers s !! i) as [c|] eqn:Hc; [|done].
    destruct (pc c) eqn:Hpc; repeat case_match; simplify_eq;
      simpl in Hj; caller_at; try (by eapply Hinv);
      simpl; unfold second; lia.
Qed.

Lemma reachable_budgets (p : program) (t0 : Z) (log : list call)
    (a : option agg_pc) (cs : list (nat * Image)) (s : state) :
  reachable p (initial t0 log a cs) s → budgets_inv s.
Proof.
  intros Hreach. eapply reachable_invariant; [apply step_budgets| |exact Hreach].
  intros j cj Hj. simpl in Hj. rewrite list_lookup_fmap in Hj.
  destruct (cs !! j); simplify_eq/=. lia.
Qed.

(** With a model that always raises, a request thread that has not
    returned comes to return an exception by its own steps and the
    passing of time, within the time-outs it still has before it. *)
Lemma caller_returns (p : program) (t0 : Z) (log : list call)
    (cs : list (nat * Image)) (i : nat) :
  (∀ inputs, ∃ e, model inputs = inl e) →
  ∀ (n : nat) (s : state) (c : caller),
    reachable p (initial t0 log (Some ARound) cs) s →
    callers s !! i = Some c →
    (stage (pc c) < 5)%nat → (5 - stage (pc c) ≤ n)%nat →
    ∃ ls s' e, Forall (alone i) ls ∧ run p s ls = Some s' ∧
               now s' - now s ≤ time_to_answer (pc c) ∧
               pc <$> callers s' !! i = Some (CReturn (inl e)).
Proof.
  intros Hraises. induction n as [|n IH]; intros s c Hreach Hc Hstage Hn; [lia|].
  destruct (caller_moves p s i c Hc Hstage) as (s1 & c1 & Hrun & Hnow & Hc1 & Hlt).
  assert (reachable p (initial t0 log (Some ARound) cs) s1) as Hreach1.
  { eapply reachable_trans; [exact Hreach|by eapply run_reachable]. }
  pose proof (reachable_budgets p t0 log _ cs s Hreach i c Hc) as Hw.
  assert (Forall (alone i) [Tick (wait_left (now s) (pc c)); Run (Request i)]) as Halone.
  { by repeat constructor. }
  destruct (decide (stage (pc c1) < 5)%nat) as [Hstage1|Hdone].
  - destruct (IH s1 c1 Hreach1 Hc1 Hstage1) as (ls & s' & e & Hls & Hrun' & Htime & Hret);
      [lia|].
    exists ([Tick (wait_left (now s) (pc c)); Run (Request i)] ++ ls), s', e.
    split; [by apply Forall_app|]. split; [by rewrite run_app, Hrun|].
    split; [|done].
    destruct (pc c), (pc c1); simpl in *; unfold second in *; lia.
  - destruct (reachable_raises Hraises p t0 log cs s1 Hreach1) as (_ & _ & Hret).
    destruct (pc c1) as [| | | | |r] eqn:Hpc1; simpl in Hdone; try lia.
    destruct (Hret i c1 r Hc1 Hpc1) as [e ->].
    exists [Tick (wait_left (now s) (pc c)); Run (Request i)], s1, e.
    split; [done|]. split; [done|]. split.
    + destruct (pc c); simpl in *; unfold second in *; lia.
    + by rewrite Hc1; simpl; rewrite Hpc1.
Qed.

(** ** The round after a batch *)

(** From the top of its loop the aggregator takes the item at the head
    of the queue and, the timer of the round over, hands it to the
    model. *)
Lemma round_run (p : program) (s : state) (it : item) (q : list item) :
  0 < BATCH_SIZE p →
  batch_thread s = Some ARound → request_queue s = it :: q →
  ∃ s', run p s [Run Aggregator; Run Aggregator; Run Aggregator;
                 Tick (Z.max 0 (BATCH_TIMEOUT_MS p * millisecond));
                 Run Aggregator] = Some s' ∧
        batch_thread s' = Some (ADetect (now s) [it]) ∧
        request_queue s' = q ∧
        inflight s' = inflight s ++ [(Aggregator, [image it])].
Proof.
  intros Hbs Hpc Hq. eexists. cbn [run step]. rewrite Hpc.
  cbn [agg_step step batch_thread set_agg length now].
  replace (Z.of_nat 0 <? BATCH_SIZE p) with true by (symmetry; apply Z.ltb_lt; lia).
  rewrite andb_false_r.
  cbn [step batch_thread set_agg agg_step request_queue]. rewrite Hq.
  replace (0 <=? Z.max 0 (BATCH_TIMEOUT_MS p * millisecond)) with true
    by (symmetry; apply Z.leb_le; lia).
  cbn [step batch_thread set_agg set_now set_queue agg_step app length now].
  replace (BATCH_TIMEOUT_MS p * millisecond -
             (now s + Z.max 0 (BATCH_TIMEOUT_MS p * millisecond) - now s) <=? 0)
    with true by (symmetry; apply Z.leb_le; lia).
  destruct (Z.of_nat 1 <? BATCH_SIZE p); simpl; done.
Qed.

(** The same with [BATCH_SIZE] items in the queue: they are handed to
    the model as one batch, with no time passing. *)
Lemma full_round_run (p : program) (s : state) (items q : list item) :
  0 < BATCH_SIZE p → 0 < BATCH_TIMEOUT_MS p →
  batch_thread s = Some ARound → request_queue s = items ++ q →
  Z.of_nat (length items) = BATCH_SIZE p →
  ∃ s', run p s (replicate (2 * length items + 2) (Run Aggregator)) = Some s' ∧
        batch_thread s' = Some (ADetect (now s) items) ∧
        now s' = now s ∧ request_queue s' = q ∧
        inflight s' = inflight s ++ [(Aggregator, image <$> items)].
Proof.
  intros Hbs Hms Hpc Hq Hlen.
  destruct (collect_run p (now s) q Hbs items [] (set_agg (ACollect (now s) []) s))
    as (s' & Hrun & Hpc' & Hnow & Hq' & _ & _ & Hfl);
    [done | done | simpl; lia | simpl; unfold millisecond; lia |].
  exists s'. replace (2 * length items + 2)%nat with (S (2 * length items + 1)) by lia.
  cbn [replicate run step]. rewrite Hpc. done.
Qed.

(** C8: when the detection of a batch raises, whatever the model, the
    aggregator catches the exception, sets the event of every item of
    the batch, stores nothing, leaves the queue as it is and is back at
    the top of its loop.  From the top of its loop, with [BATCH_SIZE]
    positive, the aggregator takes the item at the head of the queue
    and hands it to the model when the timer of the round is over, and
    hands [BATCH_SIZE] queued items to the model as one batch with no
    time passing.  When the model raises on every batch, every request
    thread that has returned hands an exception to the handler, which
    answers with the error status; a request thread that has not
    returned is never blocked for more than thirty seconds before it
    moves to a later stage; one that waits for the batch under
    detection is woken and returns an exception with no time passing;
    and every one that has not returned comes to return an exception by
    its own steps and the passing of time, within the time-outs it
    still has before it: the five seconds of its [put] and the thirty
    of its wait. *)
Theorem failing_adapter_is_survived (p : program) :
  (∀ (s : state) start_time batch_items e log,
     batch_thread s = Some (ADetect start_time batch_items) →
     _detect_batch (image <$> batch_items) (calls s) = (inl e, log) →
     ∃ s', run p s (replicate (length batch_items + 2) (Run Aggregator)) = Some s' ∧
           batch_thread s' = Some ARound ∧
           (∀ it, it ∈ batch_items → event it ∈ events s') ∧
           results_map s' = results_map s ∧
           request_queue s' = request_queue s ∧
           now s' = now s) ∧
  (∀ (s : state) it q,
     0 < BATCH_SIZE p →
     batch_thread s = Some ARound → request_queue s = it :: q →
     ∃ s', run p s [Run Aggregator; Run Aggregator; Run Aggregator;
                    Tick (Z.max 0 (BATCH_TIMEOUT_MS p * millisecond));
                    Run Aggregator] = Some s' ∧
           batch_thread s' = Some (ADetect (now s) [it]) ∧
           request_queue s' = q ∧
           inflight s' = inflight s ++ [(Aggregator, [image it])]) ∧
  (∀ (s : state) items q,
     0 < BATCH_SIZE p → 0 < BATCH_TIMEOUT_MS p →
     batch_thread s = Some ARound → request_queue s = items ++ q →
     Z.of_nat (length items) = BATCH_SIZE p →
     ∃ s', run p s (replicate (2 * length items + 2) (Run Aggregator)) = Some s' ∧
           batch_thread s' = Some (ADetect (now s) items) ∧
           now s' = now s ∧ request_queue s' = q ∧
           inflight s' = inflight s ++ [(Aggregator, image <$> items)]) ∧
  ((∀ inputs, ∃ e, model inputs = inl e) →
   ∀ t0 log cs (s : state) i c,
     reachable p (initial t0 log (Some ARound) cs) s →
     callers s !! i = Some c →
     (∀ r, pc c = CReturn r →
        ∃ e, r = inl e ∧ status_code (respond p r) = error_status p) ∧
     ((stage (pc c) < 5)%nat →
        ∃ d s' c', 0 ≤ d ≤ 30 * second ∧
                   run p s [Tick d; Run (Request i)] = Some s' ∧
                   callers s' !! i = Some c' ∧
                   (stage (pc c) < stage (pc c'))%nat) ∧
     (∀ it deadline start_time batch_items,
        pc c = CWait it deadline →
        batch_thread s = Some (ADetect start_time batch_items) →
        it ∈ batch_items →
        ∃ s' e, run p s (replicate (length batch_items + 2) (Run Aggregator) ++
                         [Run (Request i); Run (Request i); Run (Request i)]) = Some s' ∧
                now s' = now s ∧
                pc <$> callers s' !! i = Some (CReturn (inl e)) ∧
                status_code (respond p (inl e)) = error_status p) ∧
     ((stage (pc c) < 5)%nat →
        ∃ ls s' e, Forall (alone i) ls ∧ run p s ls = Some s' ∧
                   now s' - now s ≤ time_to_answer (pc c) ≤ 35 * second ∧
                   pc <$> callers s' !! i = Some (CReturn (inl e)) ∧
                   status_code (respond p (inl e)) = error_status p)).
Proof.
  split; [|split; [|split]].
  - intros s start_time batch_items e log Hpc Hdet.
    destruct (detect_run_failed p s start_time batch_items e log Hpc Hdet)
      as (s' & Hrun & Hround & Hmap & Hq & _ & Hnow & Hev).
    by exists s'.
  - intros s it q Hbs Hpc Hq. by apply round_run.
  - intros s items q Hbs Hms Hpc Hq Hlen. by apply full_round_run.
  - intros Hraises t0 log cs s i c Hreach Hc.
    destruct (reachable_raises Hraises p t0 log cs s Hreach) as (Hmap & Hagg & Hret).
    split; [|split; [|split]].
    + intros r Hr. destruct (Hret i c r Hc Hr) as [e ->]. by exists e.
    + intros Hstage.
      destruct (caller_moves p s i c Hc Hstage) as (s' & c' & Hrun & _ & Hc' & Hlt).
      exists (wait_left (now s) (pc c)), s', c'. split; [|done]. split.
      * destruct (pc c); simpl; lia.
      * assert (waits_inv s) as Hw.
        { eapply reachable_invariant; [apply step_waits| |exact Hreach].
          intros j cj Hj. simpl in Hj. rewrite list_lookup_fmap in Hj.
          destruct (cs !! j); simplify_eq/=. unfold second. lia. }
        by eapply Hw.
    + intros it deadline start_time batch_items Hwait Ha Hit.
      destruct (detect_batch_raises Hraises (image <$> batch_items) (calls s))
        as (e0 & log0 & Hdet); [by destruct batch_items; [apply elem_of_nil in Hit|]|].
      destruct (detect_run_failed p s start_time batch_items e0 log0 Ha Hdet)
        as (s1 & Hrun & _ & Hmap1 & _ & Hcs & Hnow & Hev).
      assert (i < length (callers s1))%nat as Hi.
      { rewrite Hcs. by eapply lookup_lt_Some. }
      destruct (direct_raises Hraises p (input c) (calls s1)) as (e & log' & Hd).
      eexists _, e. rewrite run_app, Hrun. cbn [mbind option_bind run step].
      rewrite Hcs, Hc. unfold caller_step at 1. rewrite Hwait.
      rewrite bool_decide_eq_true_2 by by apply Hev.
      cbn [orb step callers set_pc]. rewrite list_lookup_insert_eq by done.
      unfold caller_step at 1. cbn [pc results_map set_pc].
      rewrite Hmap1, Hmap, lookup_empty. unfold start_direct.
      cbn [step callers set_pc enter set_inflight].
      rewrite list_lookup_insert_eq by by rewrite length_insert.
      unfold caller_step. cbn [pc input calls set_pc enter set_inflight].
      rewrite Hd. split; [done|]. split; [by rewrite <- Hnow|]. split; [|done].
      cbn [callers set_pc]. rewrite list_lookup_insert_eq; [done|].
      simpl. by rewrite !length_insert.
    + intros Hstage.
      destruct (caller_returns p t0 log cs i Hraises 5 s c Hreach Hc Hstage)
        as (ls & s' & e & Hls & Hrun & Htime & Hreturn); [lia|].
      exists ls, s', e. split; [done|]. split; [done|]. split; [|by split].
      split; [done|]. destruct (pc c); simpl; unfold second; lia.
Qed.

(** ** The default configuration *)

Lemma one_image_direct (p : program) (im : exn + Image) (image : Image) :
  one_image p false im ≠ Queued image.
Proof. by destruct im. Qed.

Lemma many_images_direct (p : program) (ds : list image_data) (image : Image) :
  many_images p ds ≠ Queued image.
Proof. unfold many_images. by destruct (preprocess_all ds). Qed.

(** C7 (as amended): in main_optimized.py, with [BATCH_SIZE] unset the
    batch size is 1 and dynamic batching is off: [init_context] starts no
    aggregator thread and the handler queues no request, whatever its
    body. *)
Theorem aggregation_off_by_default (environ : gmap string string) (p : program) :
  environ !! "BATCH_SIZE"%string = None →
  load MainOptimized environ = inr p →
  BATCH_SIZE p = 1 ∧
  USE_DYNAMIC_BATCH p = false ∧
  (∀ log a log', init_context p log = (inr a, log') → a = None) ∧
  (∀ b image, handler p b ≠ Queued image).
Proof.
  intros Hunset Hload. unfold load, getenv in Hload. rewrite Hunset in Hload.
  change (py_int "1") with (inr 1 : exn + Z) in Hload.
  destruct (py_int _) as [e|ms]; [done|].
  destruct (py_int _) as [e|mq]; [done|].
  injection Hload as <-.
  split; [done|]. split; [done|]. split.
  - intros log a log'. unfold init_context, bind. cbn [src].
    destruct (repeat_m 3 (_detect_single white) log) as [[e|u] log1]; [done|].
    unfold USE_DYNAMIC_BATCH. cbn [BATCH_SIZE]. unfold ret. simpl.
    by intros [= <- _].
  - intros b image. unfold handler. cbn [src].
    unfold USE_DYNAMIC_BATCH. cbn [BATCH_SIZE].
    change (1 <? 1) with false.
    destruct (body_image b), (body_url b), (body_images b);
      try apply one_image_direct; try apply many_images_direct; done.
Qed.

(** * Further properties *)

(** ** Calls and bounds of [_detect_batch] *)

(** X1: on a batch that is not empty, [_detect_batch] calls the
    preprocessor once, on the whole batch; when the preprocessor raises
    the model is not called and the exception comes out, otherwise the
    model is called once, on what the preprocessor built, and an
    exception of the model comes out. *)
Theorem detect_batch_calls_once (images : list Image) (log : list call) :
  images ≠ [] →
  (∀ e, processor images = inl e →
     _detect_batch images log = (inl e, log ++ [CallProcessor images])) ∧
  (∀ inputs, processor images = inr inputs →
     (_detect_batch images log).2 =
       log ++ [CallProcessor images; CallModel inputs] ∧
     ∀ e, model inputs = inl e → (_detect_batch images log).1 = inl e).
Proof.
  intros Hne. destruct images as [|im images]; [done|].
  unfold _detect_batch, bind, invoke, lift. split.
  - intros e ->. done.
  - intros inputs ->. rewrite <- app_assoc. simpl.
    destruct (model inputs) as [e|probabilities]; [|done].
    split; [done|]. by intros e' [= <-].
Qed.

Lemma collect_rows_short (probabilities : list (list float)) (n : nat) :
  ∀ (k : nat) (acc : list result),
    (∀ probs, probs ∈ probabilities → ∃ r, row_result probs = inr r) →
    (length probabilities < k + n)%nat → (0 < n)%nat →
    collect_rows probabilities (seq k n) acc = inl IndexError.
Proof.
  induction n as [|n IH]; intros k acc Hrows Hshort Hn; [lia|].
  simpl. destruct (probabilities !! k) as [probs|] eqn:Hk; [|done].
  destruct (Hrows probs) as [r ->]; [by eapply list_elem_of_lookup_2|].
  apply lookup_lt_Some in Hk. apply IH; [done|lia|lia].
Qed.

(** X2: when the model gives fewer rows than there are images (each row
    a good one), [_detect_batch] raises [IndexError]: no short list of
    results comes out. *)
Theorem detect_batch_short_output (images : list Image) (log : list call)
    (inputs : Inputs) (probabilities : list (list float)) :
  processor images = inr inputs →
  model inputs = inr probabilities →
  (length probabilities < length images)%nat →
  (∀ probs, probs ∈ probabilities → ∃ r, row_result probs = inr r) →
  (_detect_batch images log).1 = inl IndexError.
Proof.
  intros Hp Hm Hlen Hrows. destruct images as [|im images]; [simpl in Hlen; lia|].
  unfold _detect_batch, bind, invoke, lift. rewrite Hp, Hm.
  cbn [fst]. apply collect_rows_short; [done| |]; simpl in *; lia.
Qed.

Lemma collect_rows_enough (probabilities : list (list float)) (n : nat) :
  ∀ (k : nat) (acc : list result),
    (∀ i, (k ≤ i < k + n)%nat →
       ∃ probs r, probabilities !! i = Some probs ∧ row_result probs = inr r) →
    ∃ rs, collect_rows probabilities (seq k n) acc = inr rs.
Proof.
  induction n as [|n IH]; intros k acc Hrows; [by eexists|].
  simpl. destruct (Hrows k) as (probs & r & -> & ->); [lia|].
  apply IH. intros i Hi. apply Hrows. lia.
Qed.

(** X3: when the model gives at least one good row per image,
    [_detect_batch] returns, with one result per image, whatever rows
    the model gave beyond. *)
Theorem detect_batch_enough_output (images : list Image) (log : list call)
    (inputs : Inputs) (probabilities : list (list float)) :
  images ≠ [] →
  processor images = inr inputs →
  model inputs = inr probabilities →
  (∀ i, (i < length images)%nat →
     ∃ probs r, probabilities !! i = Some probs ∧ row_result probs = inr r) →
  ∃ results,
    _detect_batch images log =
      (inr results, log ++ [CallProcessor images; CallModel inputs]) ∧
    length results = length images.
Proof.
  intros Hne Hp Hm Hrows.
  destruct (collect_rows_enough probabilities (length images) 0 [])
    as [rs Hrs]; [intros i Hi; apply Hrows; lia|].
  exists rs.
  assert (_detect_batch images log =
            (inr rs, log ++ [CallProcessor images; CallModel inputs])) as Hdet.
  { destruct images as [|im images]; [done|].
    unfold _detect_batch, bind, invoke, lift. rewrite Hp, Hm, <- app_assoc.
    by rewrite Hrs. }
  split; [done|]. by destruct (detect_batch_rows _ _ _ _ Hdet).
Qed.

(** X15: the two direct detections agree: [_detect_single(image)]
    returns or raises what [_detect_batch([image])[0]] does and makes
    the same calls. *)
Theorem single_is_batch_of_one (p q : program) (image : Image) (log : list call) :
  direct p image log = direct q image log ∧
  _detect_single image log =
    match _detect_batch [image] log with
    | (inr results, log') => (first results, log')
    | (inl e, log') => (inl e, log')
    end.
Proof.
  split.
  - by rewrite !direct_batch_of_one.
  - rewrite detect_single_batch_of_one. unfold bind, lift.
    by destruct (_detect_batch [image] log) as [[e|rs] log'].
Qed.

(** ** The result of one row *)

Lemma argmax_from_spec (asym : ∀ a b, fltb a b = true → fltb b a = false)
    (ntrans : ∀ a b c, fltb a b = false → fltb b c = false → fltb a c = false)
    (l : list float) :
  ∀ (best_i : nat) (best : float) (i j : nat) (v : float),
    argmax_from best_i best i l = (j, v) →
    fltb v best = false ∧
    (∀ x, x ∈ l → fltb v x = false) ∧
    ((j = best_i ∧ v = best) ∨ ∃ k, j = (i + k)%nat ∧ l !! k = Some v).
Proof.
  assert (∀ a, fltb a a = false) as irrefl.
  { intros a. destruct (fltb a a) eqn:Ha; [|done]. by rewrite (asym a a Ha) in Ha. }
  induction l as [|x l IH]; intros best_i best i j v Harg; simpl in Harg.
  - injection Harg as <- <-. split; [done|]. split; [|by left].
    intros x Hx. by apply elem_of_nil in Hx.
  - destruct (fltb best x) eqn:Hbx.
    + destruct (IH _ _ _ _ _ Harg) as (Hvx & Hall & Hpos).
      split; [by eapply ntrans; [exact Hvx|apply asym]|].
      split.
      * intros y [->|Hy]%elem_of_cons; [done|by apply Hall].
      * right. destruct Hpos as [[-> ->]|(k & -> & Hk)].
        -- exists 0%nat. split; [lia|done].
        -- exists (S k). split; [lia|done].
    + destruct (IH _ _ _ _ _ Harg) as (Hvb & Hall & Hpos).
      split; [done|]. split.
      * intros y [->|Hy]%elem_of_cons; [by eapply ntrans|by apply Hall].
      * destruct Hpos as [[-> ->]|(k & -> & Hk)]; [by left|].
        right. exists (S k). split; [lia|done].
Qed.

(** X4: for an order on the numbers in which no two are each below the
    other and "not below" is transitive, [np.argmax] as the code uses it
    yields a position of the row and the entry there, and no entry of
    the row is above that entry. *)
Theorem argmax_is_greatest (probs : list float) (i : nat) (v : float) :
  (∀ a b, fltb a b = true → fltb b a = false) →
  (∀ a b c, fltb a b = false → fltb b c = false → fltb a c = false) →
  argmax probs = inr (i, v) →
  probs !! i = Some v ∧ ∀ x, x ∈ probs → fltb v x = false.
Proof.
  intros asym ntrans Harg. destruct probs as [|x l]; [done|].
  simpl in Harg. injection Harg as Harg.
  destruct (argmax_from_spec asym ntrans l _ _ _ _ _ Harg) as (Hvx & Hall & Hpos).
  split.
  - destruct Hpos as [[-> ->]|(k & -> & Hk)]; done.
  - intros y [->|Hy]%elem_of_cons; [done|by apply Hall].
Qed.

Lemma scores_of_total (labels : gmap nat string) (probs : list float) (js : list nat) :
  ∀ acc,
    (∀ j, j ∈ js → is_Some (labels !! j) ∧ is_Some (probs !! j)) →
    ∃ sc, scores_of labels probs js acc = inr sc.
Proof.
  induction js as [|j js IH]; intros acc Hjs; [by eexists|].
  simpl. destruct (Hjs j) as [[l ->] [v ->]]; [by left|].
  apply IH. intros j' Hj'. apply Hjs. by right.
Qed.

Lemma scores_of_frame (labels : gmap nat string) (probs : list float) (js : list nat) :
  ∀ acc sc l,
    scores_of labels probs js acc = inr sc →
    (∀ j, j ∈ js → labels !! j ≠ Some l) →
    sc !! l = acc !! l.
Proof.
  induction js as [|j js IH]; intros acc sc l Hsc Hother; simpl in Hsc.
  - by injection Hsc as <-.
  - destruct (labels !! j) as [k|] eqn:Hk; [|done].
    destruct (probs !! j) as [v|] eqn:Hv; [|done].
    rewrite (IH _ _ l Hsc); [|intros j' Hj'; apply Hother; by right].
    apply lookup_insert_ne. intros ->. by apply (Hother j); [left|].
Qed.

Lemma scores_of_lookup (labels : gmap nat string) (probs : list float) (js : list nat) :
  (∀ i j l, labels !! i = Some l → labels !! j = Some l → i = j) →
  ∀ acc sc j l,
    scores_of labels probs js acc = inr sc →
    j ∈ js → labels !! j = Some l →
    ∃ v, probs !! j = Some v ∧ sc !! l = Some v.
Proof.
  intros Hinj. induction js as [|j0 js IH]; intros acc sc j l Hsc Hj Hl.
  { by apply elem_of_nil in Hj. }
  simpl in Hsc.
  destruct (labels !! j0) as [k|] eqn:Hk; [|done].
  destruct (probs !! j0) as [v|] eqn:Hv; [|done].
  destruct (decide (j ∈ js)) as [Hin|Hout]; [by eapply IH|].
  apply elem_of_cons in Hj as [->|Hj]; [|done].
  rewrite Hl in Hk. injection Hk as <-. exists v. split; [done|].
  rewrite (scores_of_frame _ _ _ _ _ l Hsc); [by rewrite lookup_insert_eq|].
  intros j' Hj' Hl'. apply Hout. by rewrite (Hinj _ _ _ Hl Hl').
Qed.

Lemma scores_of_keys (labels : gmap nat string) (probs : list float) (js : list nat) :
  ∀ acc sc l,
    scores_of labels probs js acc = inr sc → is_Some (sc !! l) →
    is_Some (acc !! l) ∨ ∃ j, j ∈ js ∧ labels !! j = Some l.
Proof.
  induction js as [|j js IH]; intros acc sc l Hsc Hsome; simpl in Hsc.
  - injection Hsc as <-. by left.
  - destruct (labels !! j) as [k|] eqn:Hk; [|done].
    destruct (probs !! j) as [v|] eqn:Hv; [|done].
    destruct (IH _ _ l Hsc Hsome) as [Hacc|(j' & Hj' & Hl')].
    + destruct (decide (k = l)) as [->|Hne].
      * right. exists j. split; [by left|done].
      * left. by rewrite lookup_insert_ne in Hacc.
    + right. exists j'. split; [by right|done].
Qed.

Lemma argmax_from_position (l : list float) :
  ∀ (best_i : nat) (best : float) (i j : nat) (v : float),
    argmax_from best_i best i l = (j, v) →
    (j = best_i ∧ v = best) ∨ ∃ k, j = (i + k)%nat ∧ l !! k = Some v.
Proof.
  induction l as [|x l IH]; intros best_i best i j v Harg; simpl in Harg.
  - injection Harg as <- <-. by left.
  - destruct (fltb best x).
    + right. destruct (IH _ _ _ _ _ Harg) as [[-> ->]|(k & -> & Hk)].
      * exists 0%nat. split; [lia|done].
      * exists (S k). split; [lia|done].
    + destruct (IH _ _ _ _ _ Harg) as [[-> ->]|(k & -> & Hk)]; [by left|].
      right. exists (S k). split; [lia|done].
Qed.

(** X5: with [id2label] keyed 0, 1, ... (one key below its size each)
    and a row of as many entries as there are labels, at least one, the
    loop body raises nothing: the class is the label at the position
    [np.argmax] gives, the confidence is the rounded entry there, and
    [is_nsfw] tells whether the class, in lower case, is one of the six
    words. *)
Theorem row_result_well_formed (probs : list float) :
  (∀ j, (j < size id2label)%nat → is_Some (id2label !! j)) →
  length probs = size id2label → probs ≠ [] →
  ∃ r i v, row_result probs = inr r ∧
           argmax probs = inr (i, v) ∧ probs !! i = Some v ∧
           id2label !! i = Some (predicted_class r) ∧
           confidence r = round4 v ∧
           is_nsfw r = bool_decide (lower (predicted_class r) ∈ nsfw_classes).
Proof.
  intros Hkeys Hlen Hne. unfold row_result.
  destruct (scores_of_total id2label probs (seq 0 (size id2label)) ∅) as [sc ->].
  { intros j Hj%elem_of_seq. split; [apply Hkeys; lia|].
    apply lookup_lt_is_Some. lia. }
  destruct probs as [|x l]; [done|]. cbn [argmax].
  destruct (argmax_from 0 x 1 l) as [i v] eqn:Harg.
  assert ((x :: l) !! i = Some v) as Hi.
  { destruct (argmax_from_position _ _ _ _ _ _ Harg) as [[-> ->]|(k & -> & Hk)]; done. }
  destruct (Hkeys i) as [cls Hcls].
  { rewrite <- Hlen. by eapply lookup_lt_Some. }
  rewrite Hcls. by eexists _, i, v.
Qed.

(** X6: when the labels of [id2label] are distinct, the scores of a
    result hold, under each label, the rounded entry of the row at the
    position of that label, and they have no other key. *)
Theorem scores_hold_the_row (probs : list float) (r : result) :
  (∀ i j l, id2label !! i = Some l → id2label !! j = Some l → i = j) →
  row_result probs = inr r →
  (∀ j l, (j < size id2label)%nat → id2label !! j = Some l →
     ∃ v, probs !! j = Some v ∧ scores r !! l = Some (round4 v)) ∧
  (∀ l, is_Some (scores r !! l) →
     ∃ j, (j < size id2label)%nat ∧ id2label !! j = Some l).
Proof.
  intros Hinj Hrow. unfold row_result in Hrow.
  destruct (scores_of id2label probs (seq 0 (size id2label)) ∅) as [e|sc] eqn:Hsc;
    [done|].
  destruct (argmax probs) as [e|[i v]]; [done|].
  destruct (id2label !! i) as [cls|]; [|done].
  injection Hrow as <-. cbn [scores]. split.
  - intros j l Hj Hl.
    destruct (scores_of_lookup _ _ _ Hinj _ _ j l Hsc) as (v' & Hv' & Hl');
      [apply elem_of_seq; lia|done|].
    exists v'. split; [done|]. by rewrite lookup_fmap, Hl'.
  - intros l Hsome. rewrite lookup_fmap in Hsome.
    apply fmap_is_Some in Hsome.
    destruct (scores_of_keys _ _ _ _ _ l Hsc Hsome) as [Hacc|(j & Hj%elem_of_seq & Hl)].
    + rewrite lookup_empty in Hacc. by destruct Hacc.
    + exists j. split; [lia|done].
Qed.

(** ** The batches of the aggregator *)

Lemma step_batch (p : program) (s s' : state) (l : label) :
  0 ≤ BATCH_SIZE p →
  step p s l = Some s' → batch_inv p s → batch_inv p s'.
Proof.
  unfold batch_inv. intros Hbs Hstep Hinv.
  step_cases Hstep;
    repeat match goal with
           | Hb : batch_thread _ = _ |- _ => rewrite Hb in *; clear Hb
           end;
    simplify_eq; try done; cbn [length] in *; tests;
    rewrite ?length_app in *; cbn [length] in *; try lia;
    try (split; [lia|done]); try (split; [lia|]; by destruct batch_items).
Qed.

(** X8: every batch the aggregator hands to the model holds at least one
    item and at most [BATCH_SIZE]. *)
Theorem batch_size_bounds (p : program) (t0 : Z) (log : list call)
    (cs : list (nat * Image)) (s : state) (start_time : Z) (batch_items : list item) :
  0 ≤ BATCH_SIZE p →
  reachable p (initial t0 log (Some ARound) cs) s →
  batch_thread s = Some (ADetect start_time batch_items) →
  1 ≤ Z.of_nat (length batch_items) ≤ BATCH_SIZE p.
Proof.
  intros Hbs Hreach Hpc.
  assert (batch_inv p s) as Hinv.
  { by eapply reachable_invariant; [intros ???; by apply step_batch| |exact Hreach]. }
  unfold batch_inv in Hinv. rewrite Hpc in Hinv. destruct Hinv as [Hle Hne].
  destruct batch_items; [done|]. simpl in *. lia.
Qed.

Lemma step_get (p : program) (s s' : state) (l : label) :
  step p s l = Some s' → get_inv p s → get_inv p s'.
Proof.
  unfold get_inv. intros Hstep Hinv.
  step_cases Hstep;
    repeat match goal with
           | Hb : batch_thread _ = _ |- _ => rewrite Hb in *; clear Hb
           end;
    simplify_eq; try done; intros Hne; unfold millisecond in *; tests; try lia;
    try done;
    match goal with
    | Hb : ?b ≠ [] |- _ => destruct b; [done|simpl in *; lia]
    end.
Qed.

(** X14: while the aggregator blocks in [get] with an item already
    collected, the deadline of that [get] lies at the end of the timer of
    the round or less than a millisecond after it. *)
Theorem get_ends_with_the_timer (p : program) (t0 : Z) (log : list call)
    (cs : list (nat * Image)) (s : state) (start_time deadline : Z)
    (batch_items : list item) :
  reachable p (initial t0 log (Some ARound) cs) s →
  batch_thread s = Some (AGet start_time batch_items deadline) →
  batch_items ≠ [] →
  start_time + BATCH_TIMEOUT_MS p * millisecond ≤ deadline
    < start_time + BATCH_TIMEOUT_MS p * millisecond + millisecond.
Proof.
  intros Hreach Hpc Hne. split.
  - assert (timer_inv p s) as Hinv.
    { by eapply reachable_invariant; [apply step_timer| |exact Hreach]. }
    unfold timer_inv in Hinv. by rewrite Hpc in Hinv.
  - assert (get_inv p s) as Hinv.
    { by eapply reachable_invariant; [apply step_get| |exact Hreach]. }
    unfold get_inv in Hinv. rewrite Hpc in Hinv. by apply Hinv.
Qed.

(** X7: the queue of main_batch.py is never full: whatever the
    environment, no request thread ever blocks in its [put], so the
    branch for [queue.Full] is never taken. *)
Theorem main_batch_never_refuses (environ : gmap string string) (p : program)
    (t0 : Z) (log : list call) (a : option agg_pc) (cs : list (nat * Image))
    (s : state) :
  load MainBatch environ = inr p →
  reachable p (initial t0 log a cs) s →
  (∀ q, full p q = false) ∧
  ∀ i c it deadline, callers s !! i = Some c → pc c ≠ CPut it deadline.
Proof.
  intros Hload Hreach.
  assert (maxsize p = 0) as Hmax.
  { unfold load in Hload. repeat case_match; simplify_eq. done. }
  assert (∀ q, full p q = false) as Hfull.
  { intros q. unfold full. by rewrite Hmax. }
  split; [done|].
  enough (∀ i c, callers s !! i = Some c → stage (pc c) ≠ 1%nat) as Hinv.
  { intros i c it deadline Hc Hpc. apply (Hinv i c Hc). by rewrite Hpc. }
  eapply (reachable_invariant p
            (λ s, ∀ i c, callers s !! i = Some c → stage (pc c) ≠ 1%nat));
    [| |exact Hreach].
  - clear Hreach. intros s1 s2 l Hstep Hinv j cj Hj.
    unfold step, agg_step, caller_step, after_collect, start_direct, enqueue in Hstep.
    destruct l as [d|[|i]].
    + case_match; simplify_eq. by eapply Hinv.
    + repeat case_match; simplify_eq; by eapply Hinv.
    + destruct (callers s1 !! i) as [c|] eqn:Hc; [|done].
      destruct (pc c) eqn:Hpc.
      * rewrite Hfull in Hstep. simplify_eq. simpl in Hj.
        caller_at; [simpl; lia|by eapply Hinv].
      * exfalso. apply (Hinv i c Hc). by rewrite Hpc.
      * case_match; simplify_eq. simpl in Hj.
        caller_at; [simpl; lia|by eapply Hinv].
      * case_match; simplify_eq; simpl in Hj;
          (caller_at; [simpl; lia|by eapply Hinv]).
      * case_match; simplify_eq. simpl in Hj.
        caller_at; [simpl; lia|by eapply Hinv].
      * done.
  - intros i c Hc. simpl in Hc. rewrite list_lookup_fmap in Hc.
    destruct (cs !! i); simplify_eq/=. lia.
Qed.


(** X9: when [BATCH_SIZE] items wait in the queue at the top of a
    collecting loop whose timer still runs, the aggregator takes them in
    the order of the queue and hands them to the model as one batch with
    no time passing: a full batch does not wait for the timer. *)
Theorem full_batch_flushes_at_once (p : program) (s : state) (start_time : Z)
    (items q : list item) :
  0 < BATCH_SIZE p →
  batch_thread s = Some (ACollect start_time []) →
  request_queue s = items ++ q →
  Z.of_nat (length items) = BATCH_SIZE p →
  now s < start_time + BATCH_TIMEOUT_MS p * millisecond →
  ∃ s', run p s (replicate (2 * length items + 1) (Run Aggregator)) = Some s' ∧
        batch_thread s' = Some (ADetect start_time items) ∧
        now s' = now s ∧ request_queue s' = q ∧
        inflight s' = inflight s ++ [(Aggregator, image <$> items)].
Proof.
  intros Hbs Hpc Hq Hlen Hnow.
  destruct (collect_run p start_time q Hbs items [] s Hpc Hq)
    as (s' & Hrun & Hpc' & Hnow' & Hq' & _ & _ & Hfl); [simpl; lia|done|].
  by exists s'.
Qed.

Lemma run_aggregator_callers (p : program) (n : nat) :
  ∀ s s', run p s (replicate n (Run Aggregator)) = Some s' → callers s' = callers s.
Proof.
  induction n as [|n IH]; intros s s' Hrun; simpl in Hrun.
  - by injection Hrun as <-.
  - destruct (batch_thread s) as [a|] eqn:Ha; [|done].
    destruct (agg_step p a s) as [s1|] eqn:Hstep; [|done].
    rewrite (IH _ _ Hrun).
    unfold agg_step, after_collect in Hstep.
    repeat case_match; simplify_eq; done.
Qed.

(** X11: a request thread that waits while its item is in the batch
    under detection, the detection returning and the request ids of the
    batch being distinct, is woken once the aggregator has distributed
    the results, pops the result stored at the position of its item,
    which leaves the table, and returns it; the handler answers 200
    with that result. *)
Theorem batched_request_gets_its_result (p : program) (s : state) (start_time : Z)
    (batch_items : list item) (results : list result) (log : list call)
    (i k : nat) (c : caller) (it : item) (deadline : Z) :
  batch_thread s = Some (ADetect start_time batch_items) →
  _detect_batch (image <$> batch_items) (calls s) = (inr results, log) →
  NoDup (request_id <$> batch_items) →
  callers s !! i = Some c → pc c = CWait it deadline →
  batch_items !! k = Some it →
  ∃ s' r,
    run p s (replicate (2 * length batch_items + 2) (Run Aggregator) ++
             [Run (Request i); Run (Request i)]) = Some s' ∧
    results !! k = Some r ∧
    callers s' !! i = Some {| ident := ident c; input := input c; pc := CReturn (inr r) |} ∧
    results_map s' !! request_id it = None ∧
    respond p (inr r) = {| status_code := 200; reply_body := Data r |}.
Proof.
  intros Hpc Hdet Hnd Hc Hwait Hk.
  destruct (detect_batch_rows _ _ _ _ Hdet) as [Hlen _].
  rewrite length_fmap in Hlen.
  set (s1 := set_agg (AStore batch_items results 0) (set_calls log (leave Aggregator s))).
  destruct (distribute_run p batch_items results Hlen (length batch_items) 0 s1
              eq_refl Hnd eq_refl) as (s2 & Hrun & Hround & Hdel & _ & _).
  assert (run p s (replicate (2 * length batch_items + 2) (Run Aggregator)) = Some s2)
    as Hrun2.
  { replace (2 * length batch_items + 2)%nat
      with (S (2 * length batch_items + 1)) by lia.
    cbn [replicate run step]. rewrite Hpc. cbn [agg_step]. by rewrite Hdet. }
  assert (callers s2 = callers s) as Hcs by by eapply run_aggregator_callers.
  destruct (Hdel k it ltac:(lia) Hk) as [Hmap Hev].
  destruct (lookup_lt_is_Some_2 results k) as [r Hr].
  { rewrite Hlen. by eapply lookup_lt_Some. }
  assert (i < length (callers s2))%nat as Hi.
  { rewrite Hcs. by eapply lookup_lt_Some. }
  eexists _, r. rewrite run_app, Hrun2. cbn [mbind option_bind run step].
  rewrite Hcs, Hc. unfold caller_step at 1. rewrite Hwait.
  rewrite bool_decide_eq_true_2 by done. cbn [orb step callers set_pc].
  rewrite list_lookup_insert_eq by done.
  unfold caller_step. cbn [pc results_map set_pc]. rewrite Hmap, Hr.
  split; [done|]. split; [done|]. split.
  - cbn [callers set_pc set_results]. rewrite list_lookup_insert_eq; [done|].
    by rewrite length_insert.
  - split; [|done]. cbn [results_map set_pc set_results]. apply lookup_delete_eq.
Qed.


(** ** Waiting requests *)

Lemma step_kept (p : program) (s s' : state) (l : label) :
  step p s l = Some s' → kept_inv s → kept_inv s'.
Proof.
  intros Hstep Hinv j cj jt dl Hj Hpc.
  unfold step, agg_step, caller_step, after_collect, start_direct, enqueue in Hstep.
  destruct l as [d|[|i]].
  - case_match; simplify_eq. by apply (Hinv j cj jt dl).
  - destruct (batch_thread s) as [a|] eqn:Ha; [|done].
    assert (callers s' = callers s) as Hcs
      by (destruct a; repeat case_match; simplify_eq; done).
    rewrite Hcs in Hj.
    destruct (Hinv j cj jt dl Hj Hpc) as [Hq|[(a' & Ha' & Hin)|Hev]].
    + (* in the queue *)
      destruct a; repeat case_match; simplify_eq; simpl;
        try (by left); try (by apply elem_of_nil in Hq).
      apply elem_of_cons in Hq as [->|Hq]; [|by left].
      right. left. eexists. split; [done|]. simpl.
      apply elem_of_app. right. by left.
    + (* in the hands of the aggregator *)
      rewrite Ha in Ha'. injection Ha' as <-.
      destruct a; simpl in Hin; repeat case_match; simplify_eq; simpl;
        try (by apply elem_of_nil in Hin);
        try (right; left; eexists; split; [done|]; simpl; done);
        try (right; left; eexists; split; [done|]; simpl;
             apply elem_of_app; by left).
      * (* IndexError: the whole batch goes to the handler *)
        right. left. eexists. split; [done|]. simpl.
        rewrite <- (take_drop i batch_items). apply elem_of_app. by right.
      * (* the loop over the results is over *)
        rewrite drop_ge in Hin; [by apply elem_of_nil in Hin|by apply lookup_ge_None].
      * (* the event of an item is set *)
        match goal with
        | Hi : batch_items !! i = Some _ |- _ => rewrite (drop_S _ _ _ Hi) in Hin
        end.
        apply elem_of_cons in Hin as [->|Hin].
        -- right. right. by apply elem_of_union_l, elem_of_singleton.
        -- right. left. eexists. split; [done|]. done.
      * rewrite drop_ge in Hin; [by apply elem_of_nil in Hin|by apply lookup_ge_None].
      * apply elem_of_cons in Hin as [->|Hin].
        -- right. right. by apply elem_of_union_l, elem_of_singleton.
        -- right. left. eexists. split; [done|]. done.
    + (* signalled *)
      destruct a; repeat case_match; simplify_eq; simpl;
        right; right; try done; by apply elem_of_union_r.
  - destruct (callers s !! i) as [c|] eqn:Hc; [|done].
    destruct (pc c) eqn:Hpcc; repeat case_match; simplify_eq;
      simpl in Hj; caller_at; simpl in *; simplify_eq;
      try (left; apply elem_of_app; right; by left);
      (destruct (Hinv j cj jt dl) as [Hq|[(a' & Ha' & Hin)|Hev]]; [done|done| | |]);
      try (left; apply elem_of_app; by left);
      try (by left); try (right; left; by eauto); try (by right; right).
Qed.

(** X10: no waiting request is dropped: in every reachable state the
    item of a request thread that waits for its event is still in the
    queue, or among the items the aggregator has taken and not yet
    signalled, or its event is set. *)
Theorem waiting_item_is_kept (p : program) (t0 : Z) (log : list call)
    (a0 : option agg_pc) (cs : list (nat * Image)) (s : state)
    (i : nat) (c : caller) (it : item) (deadline : Z) :
  reachable p (initial t0 log a0 cs) s →
  callers s !! i = Some c → pc c = CWait it deadline →
  it ∈ request_queue s ∨
  (∃ a, batch_thread s = Some a ∧ it ∈ in_hand a) ∨
  event it ∈ events s.
Proof.
  intros Hreach. revert i c it deadline.
  change (kept_inv s).
  eapply reachable_invariant; [apply step_kept| |exact Hreach].
  intros i c it deadline Hc Hpc. simpl in Hc. rewrite list_lookup_fmap in Hc.
  destruct (cs !! i); simplify_eq/=.
Qed.


(** ** [init_context] and the client batches of [handler] *)

(** X12: when [init_context] returns, the aggregator thread runs exactly
    when [BATCH_SIZE] is above 1, in both modules; the warm-up of
    main_batch.py has called the preprocessor once, on [BATCH_SIZE] white
    images, and then the model once; and when that preprocessor call
    raises, [init_context] raises the same exception and starts no
    thread. *)
Theorem init_context_starts_thread (p : program) (log : list call) :
  (∀ a log', init_context p log = (inr a, log') →
     (a = Some ARound ↔ 1 < BATCH_SIZE p) ∧ (a = None ↔ BATCH_SIZE p ≤ 1) ∧
     (src p = MainBatch →
        ∃ inputs,
          processor (replicate (Z.to_nat (BATCH_SIZE p)) white) = inr inputs ∧
          log' = log ++ [CallProcessor (replicate (Z.to_nat (BATCH_SIZE p)) white);
                         CallModel inputs])) ∧
  (∀ e, src p = MainBatch →
     processor (replicate (Z.to_nat (BATCH_SIZE p)) white) = inl e →
     init_context p log =
       (inl e, log ++ [CallProcessor (replicate (Z.to_nat (BATCH_SIZE p)) white)])).
Proof.
  split.
  - intros a log' Hinit.
    assert (a = if 1 <? BATCH_SIZE p then Some ARound else None) as Ha.
    { unfold init_context, bind, USE_DYNAMIC_BATCH, ret in Hinit.
      repeat case_match; simplify_eq; done. }
    split; [|split].
    + rewrite Ha. destruct (1 <? BATCH_SIZE p) eqn:Hbs; tests; split; (done || lia).
    + rewrite Ha. destruct (1 <? BATCH_SIZE p) eqn:Hbs; tests; split; (done || lia).
    + intros Hsrc. unfold init_context in Hinit. rewrite Hsrc in Hinit.
      unfold bind, invoke, ret in Hinit.
      destruct (processor (replicate (Z.to_nat (BATCH_SIZE p)) white))
        as [e|inputs]; [done|].
      exists inputs. split; [done|].
      destruct (model inputs); [done|].
      rewrite <- app_assoc in Hinit. simpl in Hinit.
      by destruct (USE_DYNAMIC_BATCH p); simplify_eq.
  - intros e Hsrc Hproc. unfold init_context, bind, invoke. by rewrite Hsrc, Hproc.
Qed.

Lemma preprocess_all_length (ds : list image_data) :
  ∀ images, preprocess_all ds = inr images → length images = length ds.
Proof.
  induction ds as [|d ds IH]; intros images Hall; simpl in Hall.
  - by injection Hall as <-.
  - destruct (preprocess_image d); [done|].
    destruct (preprocess_all ds) as [|ims]; [done|].
    injection Hall as <-. simpl. by rewrite (IH ims).
Qed.

(** X13: a body with the key 'images' alone is never queued: the handler
    decodes every image and detects them as one batch itself.  An answer
    with status 200 counts, in [batch_size], the images sent, with one
    result each; an image that does not decode gives the error response
    with no call of the preprocessor or the model; and an empty list is
    answered 200 with no results and no call. *)
Theorem client_batch_answer (p : program) (b : body) (ds : list image_data) :
  body_url b = None → body_image b = None → body_images b = Some ds →
  ∃ f, direct_response p (handler p b) = Some f ∧
    ∀ log,
      (status_code (f log).1 = 200 →
         ∃ rs, reply_body (f log).1 = DataList (length ds) rs ∧
               length rs = length ds) ∧
      (∀ e, preprocess_all ds = inl e → f log = (failed p e, log)) ∧
      (ds = [] → f log = ({| status_code := 200; reply_body := DataList 0 [] |}, log)).
Proof.
  intros Hurl Himage Himages.
  assert (handler p b = many_images p ds) as ->.
  { unfold handler. rewrite Hurl, Himage, Himages. by destruct (src p). }
  unfold many_images.
  destruct (preprocess_all ds) as [e|images] eqn:Hall.
  - eexists. split; [done|]. intros log. split; [|split].
    + simpl. unfold error_status. by destruct (src p).
    + by intros e' [= <-].
    + by intros ->.
  - eexists. split; [done|]. intros log. split; [|split].
    + destruct (_detect_batch images log) as [[e|rs] log'] eqn:Hdet; simpl.
      { unfold error_status. by destruct (src p). }
      intros _. destruct (detect_batch_rows _ _ _ _ Hdet) as [Hlen _].
      rewrite (preprocess_all_length _ _ Hall) in Hlen.
      exists rs. by rewrite Hlen.
    + done.
    + intros ->. by injection Hall as <-.
Qed.


(** X16: the handler queues a request only when [BATCH_SIZE] is above 1
    and the request carries one image that was fetched or decoded: in
    main_optimized.py only for the key 'image', never for a URL; in
    main_batch.py for a URL, or for the key 'image' when there is no
    URL.  A list of images, an image that does not decode and a body
    without these keys never reach the queue. *)
Theorem queued_requests (p : program) (b : body) (image : Image) :
  handler p b = Queued image →
  1 < BATCH_SIZE p ∧
  match src p with
  | MainOptimized => ∃ d, body_image b = Some d ∧ preprocess_image d = inr image
  | MainBatch =>
      (∃ u, body_url b = Some u ∧ fetch u = inr image) ∨
      (body_url b = None ∧ ∃ d, body_image b = Some d ∧ preprocess_image d = inr image)
  end.
Proof.
  unfold handler, one_image, many_images, USE_DYNAMIC_BATCH.
  destruct (src p), (body_url b) as [u|], (body_image b) as [d|],
    (body_images b) as [ds|];
    repeat case_match; intros Hq; simplify_eq; tests; split; try lia; eauto 10.
Qed.


(** ** Direct detections *)

Lemma step_direct_calls (p : program) (s s' : state) (l : label) :
  step p s l = Some s' → direct_calls_inv s → direct_calls_inv s'.
Proof.
  intros Hstep Hinv k. specialize (Hinv k). unfold calls_of in *.
  unfold step, agg_step, caller_step, after_collect, start_direct, enqueue in Hstep.
  destruct l as [d|[|i]].
  - case_match; simplify_eq. done.
  - repeat case_match; simplify_eq; simpl;
      rewrite ?filter_app, ?filter_cons_False, ?filter_nil, ?app_nil_r,
        ?filter_left_other by done; done.
  - destruct (callers s !! i) as [c|] eqn:Hc; [|done].
    assert (i < length (callers s))%nat as Hi by by eapply lookup_lt_Some.
    destruct (decide (k = i)) as [->|Hne].
    + rewrite Hc in Hinv. unfold direct_call in Hinv. simpl in Hinv.
      destruct (pc c) eqn:Hpc; repeat case_match; simplify_eq; simpl;
        rewrite ?list_lookup_insert_eq by done; simpl;
        rewrite ?filter_app, ?filter_left, ?Hinv; try done;
        by rewrite filter_cons_True, filter_nil.
    + assert (Request k ≠ Request i) as Hne' by congruence.
      destruct (pc c) eqn:Hpc; repeat case_match; simplify_eq; simpl;
        rewrite ?list_lookup_insert_ne by done;
        rewrite ?filter_app, ?filter_left_other by done;
        rewrite ?filter_cons_False, ?filter_nil, ?app_nil_r by (simpl; congruence);
        done.
Qed.

(** X17: a request thread has a detection call under way exactly while
    it stands in its direct detection, one call and on its own image
    alone; a thread that waits, pops or has returned has none. *)
Theorem direct_call_is_own_image (p : program) (t0 : Z) (log : list call)
    (a0 : option agg_pc) (cs : list (nat * Image)) (s : state) (i : nat) (c : caller) :
  reachable p (initial t0 log a0 cs) s →
  callers s !! i = Some c →
  (pc c = CDirect → calls_of (Request i) s = [(Request i, [input c])]) ∧
  (stage (pc c) ≠ 4%nat → calls_of (Request i) s = []).
Proof.
  intros Hreach Hc.
  assert (direct_calls_inv s) as Hinv.
  { eapply reachable_invariant; [apply step_direct_calls| |exact Hreach].
    intros k. unfold calls_of. simpl. rewrite filter_nil, list_lookup_fmap.
    by destruct (cs !! k). }
  specialize (Hinv i). rewrite Hc in Hinv. simpl in Hinv. unfold direct_call in Hinv.
  split.
  - intros Hpc. by rewrite Hpc in Hinv.
  - intros Hst. by destruct (pc c).
Qed.

End Properties.

(** * The scenarios *)

#[local] Existing Instance working.

(** What [f] sees in the state a run ends in, by evaluation. *)
Ltac observe f Hrun Hf :=
  match type of Hrun with
  | run ?p ?s0 ?ls = Some ?s =>
      let v := eval vm_compute in (f <$> run p s0 ls) in
      assert (f <$> run p s0 ls = v) as Hf by (vm_compute; reflexivity);
      rewrite Hrun in Hf; injection Hf as Hf
  end.

Ltac ran s Hrun :=
  match goal with
  | |- context [run ?p ?s0 ?ls] =>
      destruct (run p s0 ls) as [s|] eqn:Hrun; [|by vm_compute in Hrun]
  end.

Lemma flush_timer_runs_from_round_start_witness :
  ∃ s s', run batch4 three_requests idle_then_three = Some s ∧
          run batch4 s [Run Aggregator; Run Aggregator] = Some s' ∧
          batch_thread s' = Some (ADetect (-51000) [first_of_three]) ∧
          now s' = now s.
Proof.
  ran s Hrun. exists s.
  destruct (flush_timer_runs_from_round_start batch4 (-51000) [] three_callers s
              (run_reachable _ _ _ _ Hrun)) as (_ & _ & Honce).
  observe batch_thread Hrun Hpc. observe request_queue Hrun Hq. observe now Hrun Hnow.
  edestruct (Honce (-51000) 0 first_of_three) as (s' & Hrun' & Hpc' & Hnow' & _);
    [exact Hpc | exact Hq | reflexivity | rewrite Hnow; by vm_compute |].
  exists s'. done.
Defined.

(** C2, counterexample: batches of four, a timer of 50 ms, three
    requests at time 0.  The first request is handed to the model alone
    at time 0, 50 ms before its own timeout would be over, because the
    timer of the round ran out while the queue was empty; the two others
    follow as a batch of two at 50 ms. *)
Lemma flush_timer_counterexample :
  ∃ s it,
    run batch4 three_requests (idle_then_three ++ [Run Aggregator; Run Aggregator])
      = Some s ∧
    batch_thread s = Some (ADetect (-51000) [it]) ∧
    Z.of_nat (length [it]) < BATCH_SIZE batch4 ∧
    (request_id it).1 = 0 ∧
    now s < (request_id it).1 + BATCH_TIMEOUT_MS batch4 * millisecond ∧
    (λ s2, (now s2, batch_thread s2)) <$> run batch4 s rest_of_three =
      Some (50000, Some (ADetect 0 [@Build_item working (0, 2%nat) 12%nat 1%nat;
                                    @Build_item working (0, 3%nat) 13%nat 2%nat])).
Proof.
  ran s Hrun. exists s, first_of_three.
  observe batch_thread Hrun Hpc. observe now Hrun Hnow.
  split; [done|]. split; [exact Hpc|]. split; [reflexivity|]. split; [reflexivity|].
  split; [rewrite Hnow; reflexivity|].
  assert ((λ s2, (now s2, batch_thread s2)) <$>
            (run batch4 three_requests
               (idle_then_three ++ [Run Aggregator; Run Aggregator]) ≫=
             λ s1, run batch4 s1 rest_of_three) =
          Some (50000, Some (ADetect 0 [@Build_item working (0, 2%nat) 12%nat 1%nat;
                                        @Build_item working (0, 3%nat) 13%nat 2%nat])))
    as Hrest by (vm_compute; reflexivity).
  by rewrite Hrun in Hrest.
Qed.



(** C4, counterexample: the model is still at work on the batch of the
    aggregator when the request thread, whose wait of thirty seconds is
    over, pops nothing and enters the model itself: two detection calls
    are under way. *)
Lemma single_flight_counterexample :
  ∃ s, reachable batch4 one_request s ∧
       inflight s = [(Aggregator, [11%nat]); (Request 0, [11%nat])] ∧
       ¬ (length (inflight s) ≤ 1)%nat.
Proof.
  destruct (run batch4 one_request until_overlap) as [s|] eqn:Hrun;
    [|by vm_compute in Hrun].
  exists s. split; [by eapply run_reachable|].
  observe inflight Hrun Hfl. split; [exact Hfl|]. rewrite Hfl. simpl. lia.
Qed.

Lemma aggregator_single_flight_witness :
  ∃ s, run batch4 one_request until_overlap = Some s ∧
       (length (calls_of Aggregator s) ≤ 1)%nat.
Proof.
  ran s Hrun. exists s. split; [done|].
  apply (aggregator_single_flight batch4 0 [] one_caller s).
  by eapply run_reachable.
Defined.

Lemma batch_order_preserved_witness :
  ∃ s s', run batch4 three_requests
            (idle_then_three ++ [Run Aggregator; Run Aggregator] ++ rest_of_three)
            = Some s ∧
          run batch4 s (replicate 6 (Run Aggregator)) = Some s' ∧
          batch_thread s' = Some ARound ∧
          is_nsfw <$> results_map s' !! (0, 2%nat) = Some false ∧
          is_nsfw <$> results_map s' !! (0, 3%nat) = Some true.
Proof.
  ran s Hrun. exists s.
  observe batch_thread Hrun Hpc. observe calls Hrun Hcalls.
  edestruct (batch_order_preserved batch4 s 0
               [@Build_item working (0, 2%nat) 12%nat 1%nat;
                @Build_item working (0, 3%nat) 13%nat 2%nat])
    as (_ & s' & Hrun' & Hround & Hitems);
    [ exact Hpc
    | rewrite Hcalls; vm_compute; reflexivity
    | by apply (bool_decide_unpack _); vm_compute
    | ].
  exists s'. split; [done|]. split; [exact Hrun'|]. split; [exact Hround|].
  split.
  - destruct (Hitems 0%nat _ eq_refl)
      as (_ & _ & _ & r & _ & _ & _ & _ & Hres & Hmap & _).
    injection Hres as <-. exact (f_equal (fmap is_nsfw) Hmap).
  - destruct (Hitems 1%nat _ eq_refl)
      as (_ & _ & _ & r & _ & _ & _ & _ & Hres & Hmap & _).
    injection Hres as <-. exact (f_equal (fmap is_nsfw) Hmap).
Defined.

Lemma fallback_answers_witness :
  ∃ s n s1, run batch4 one_request until_timeout = Some s ∧
            run batch4 s (replicate n (Run (Request 0))) = Some s1 ∧
            inflight s1 = inflight s ++ [(Request 0, [11%nat])].
Proof.
  ran s Hrun. exists s.
  observe (λ s, callers s !! 0%nat) Hrun Hc.
  observe (λ s, results_map s !! (0, 1%nat)) Hrun Hnone.
  edestruct (fallback_answers batch4 s 0 _
               (@Build_item working (0, 1%nat) 11%nat 0%nat) 0 Hc)
    as (n & s1 & Hrun1 & _ & Hfl & _).
  { right. right. split; [reflexivity|]. exact Hnone. }
  exists n, s1. done.
Defined.


(** C7, counterexample: main_batch.py with no variable set has batches
    of four; [init_context] starts the aggregator thread and the handler
    queues a request that carries one image. *)
Lemma default_batch_size_counterexample :
  load MainBatch ∅ = inr batch_default ∧
  BATCH_SIZE batch_default = 4 ∧
  (init_context batch_default []).1 = inr (Some ARound) ∧
  handler batch_default (image_body 7) = Queued 7%nat.
Proof. repeat split; vm_compute; reflexivity. Qed.

Lemma aggregation_off_by_default_witness :
  load MainOptimized ∅ = inr optimized_default ∧
  BATCH_SIZE optimized_default = 1 ∧
  USE_DYNAMIC_BATCH optimized_default = false ∧
  (init_context optimized_default []).1 = inr None ∧
  ∀ b image, handler optimized_default b ≠ Queued image.
Proof.
  assert (load MainOptimized ∅ = inr optimized_default) as Hload
    by (vm_compute; reflexivity).
  destruct (aggregation_off_by_default ∅ optimized_default (lookup_empty _) Hload)
    as (Hbs & Hoff & Hinit & Hdirect).
  split; [exact Hload|]. split; [exact Hbs|]. split; [exact Hoff|].
  split; [|exact Hdirect].
  destruct (init_context optimized_default []) as [[e|a] log] eqn:Hic;
    [by vm_compute in Hic|].
  by rewrite (Hinit [] a log Hic).
Defined.

Lemma failed_batch_stores_no_marker_witness :
  ∃ s s' s'' : state (H := failing),
              run (H := failing) batch4 one_request_failing until_flush = Some s ∧
              run (H := failing) batch4 s (replicate 3 (Run Aggregator)) = Some s' ∧
              batch_thread s' = Some ARound ∧
              0%nat ∈ events s' ∧
              results_map s' !! (0, 1%nat) = None ∧
              run (H := failing) batch4 s' [Run (Request 0); Run (Request 0)] = Some s'' ∧
              pc (H := failing) <$> callers s'' !! 0%nat = Some CDirect.
Proof.
  ran s Hrun. exists s.
  observe (batch_thread (H := failing)) Hrun Hpc.
  observe (calls (H := failing)) Hrun Hcalls.
  observe (λ s, callers (H := failing) s !! 0%nat) Hrun Hc.
  observe (λ s, results_map (H := failing) s !! (0, 1%nat)) Hrun Hnone.
  edestruct (failed_batch_stores_no_marker (H := failing) batch4 s 0
               [@Build_item failing (0, 1%nat) 11%nat 0%nat])
    as (s' & Hrun' & Hround & Hmap & Hev & Hwoken);
    [exact Hpc | rewrite Hcalls; vm_compute; reflexivity |].
  edestruct (Hwoken 0%nat _ (@Build_item failing (0, 1%nat) 11%nat 0%nat) 30000000 Hc)
    as (s'' & Hrun'' & _ & Hdirect);
    [reflexivity | by apply list_elem_of_singleton | exact Hnone |].
  exists s', s''. split; [done|]. split; [exact Hrun'|]. split; [exact Hround|].
  split; [by apply (Hev (@Build_item failing (0, 1%nat) 11%nat 0%nat)),
             list_elem_of_singleton|].
  split; [by rewrite Hmap|]. done.
Defined.

(** C8, scenario: two requests and a model that raises.  The batch of
    the first request fails while the second is queued: the aggregator
    sets the event of the first, stores nothing and is back at the top
    of its loop, takes the second request and hands it to the model
    50 ms later; the first request thread, woken, returns the exception
    at once and the handler answers 500.  Four requests queued together
    are handed to the model as one batch. *)
Lemma failing_adapter_is_survived_witness :
  ∃ (s s1 s2 s3 s4 s5 : state (H := failing)) (e : exn),
    run (H := failing) batch4 two_requests_failing until_second_queued = Some s ∧
    run (H := failing) batch4 s (replicate 3 (Run Aggregator)) = Some s1 ∧
    batch_thread s1 = Some ARound ∧
    0%nat ∈ events s1 ∧
    results_map s1 = ∅ ∧
    run (H := failing) batch4 s1
      [Run Aggregator; Run Aggregator; Run Aggregator; Tick 50000; Run Aggregator]
      = Some s2 ∧
    batch_thread s2
      = Some (ADetect 50000 [@Build_item failing (50000, 2%nat) 12%nat 1%nat]) ∧
    run (H := failing) batch4 s
      (replicate 3 (Run Aggregator) ++
       [Run (Request 0); Run (Request 0); Run (Request 0)]) = Some s3 ∧
    now s3 = 50000 ∧
    pc (H := failing) <$> callers s3 !! 0%nat = Some (CReturn (inl e)) ∧
    status_code (respond (H := failing) batch4 (inl e)) = 500 ∧
    run (H := failing) batch4 four_requests_failing four_submit = Some s4 ∧
    run (H := failing) batch4 s4 (replicate 10 (Run Aggregator)) = Some s5 ∧
    inflight s5 = [(Aggregator, [11%nat; 12%nat; 13%nat; 14%nat])].
Proof.
  destruct (failing_adapter_is_survived (H := failing) batch4)
    as (Hfailed & Hnext & Hfull & Halways).
  destruct (run (H := failing) batch4 two_requests_failing until_second_queued)
    as [s|] eqn:Hrun; [|by vm_compute in Hrun].
  exists s.
  observe (batch_thread (H := failing)) Hrun Hpc.
  observe (calls (H := failing)) Hrun Hcalls.
  observe (request_queue (H := failing)) Hrun Hq.
  observe (results_map (H := failing)) Hrun Hmap.
  observe (now (H := failing)) Hrun Hnow.
  observe (λ s, callers (H := failing) s !! 0%nat) Hrun Hc.
  edestruct (Hfailed s 0 [@Build_item failing (0, 1%nat) 11%nat 0%nat])
    as (s1 & Hrun1 & Hround & Hev & Hmap1 & Hq1 & Hnow1);
    [exact Hpc | rewrite Hcalls; vm_compute; reflexivity |].
  destruct (Hnext s1 (@Build_item failing (50000, 2%nat) 12%nat 1%nat) [])
    as (s2 & Hrun2 & Hpc2 & _);
    [reflexivity | exact Hround | by rewrite Hq1 |].
  destruct (Halways (λ inputs, ex_intro _ (AdapterError "out of memory") eq_refl)
              0 [] [(1%nat, 11%nat); (2%nat, 12%nat)] s 0%nat _
              (run_reachable _ _ _ _ Hrun) Hc)
    as (_ & _ & Hwoken & Halone).
  destruct (Hwoken (@Build_item failing (0, 1%nat) 11%nat 0%nat) 30000000 0
              [@Build_item failing (0, 1%nat) 11%nat 0%nat])
    as (s3 & e & Hrun3 & Hnow3 & Hreturn & Hstatus);
    [reflexivity | exact Hpc | by apply list_elem_of_singleton |].
  destruct Halone as (ls & s' & e' & _ & _ & _ & _ & _); [simpl; lia|].
  destruct (run (H := failing) batch4 four_requests_failing four_submit)
    as [s4|] eqn:Hrun4; [|by vm_compute in Hrun4].
  observe (batch_thread (H := failing)) Hrun4 Hpc4.
  observe (request_queue (H := failing)) Hrun4 Hq4.
  observe (inflight (H := failing)) Hrun4 Hfl4.
  observe (now (H := failing)) Hrun4 Hnow4.
  destruct (Hfull s4 [@Build_item failing (0, 1%nat) 11%nat 0%nat;
                      @Build_item failing (0, 2%nat) 12%nat 1%nat;
                      @Build_item failing (0, 3%nat) 13%nat 2%nat;
                      @Build_item failing (0, 4%nat) 14%nat 3%nat] [])
    as (s5 & Hrun5 & _ & _ & _ & Hfl5);
    [reflexivity | reflexivity | exact Hpc4 | exact Hq4 | reflexivity |].
  exists s1, s2, s3, s4, s5, e.
  split; [done|]. split; [exact Hrun1|]. split; [exact Hround|].
  split; [by apply (Hev (@Build_item failing (0, 1%nat) 11%nat 0%nat)),
             list_elem_of_singleton|].
  split; [by rewrite Hmap1|].
  split; [exact Hrun2|]. split; [by rewrite Hpc2, Hnow1, Hnow|].
  split; [exact Hrun3|]. split; [by rewrite Hnow3|]. split; [exact Hreturn|].
  split; [exact Hstatus|]. split; [done|]. split; [exact Hrun5|].
  by rewrite Hfl5, Hfl4.
Defined.


(** * Scenarios for the further properties *)

Lemma detect_batch_calls_once_witness :
  (_detect_batch (H := working) [11%nat; 12%nat] []).2 =
    [CallProcessor [11%nat; 12%nat]; CallModel [11%nat; 12%nat]].
Proof.
  destruct (detect_batch_calls_once (H := working) [11%nat; 12%nat] []) as [_ Hcalls]; [done|].
  destruct (Hcalls [11%nat; 12%nat] eq_refl) as [Hlog _]. exact Hlog.
Defined.

Lemma detect_batch_short_output_witness :
  (_detect_batch (H := truncating) [11%nat; 12%nat] []).1 = inl IndexError.
Proof.
  apply (detect_batch_short_output (H := truncating) [11%nat; 12%nat] []
           [11%nat; 12%nat] [scenario_row 11]);
    [reflexivity | reflexivity | simpl; lia |].
  intros probs ->%list_elem_of_singleton. eexists. vm_compute. reflexivity.
Defined.

Lemma detect_batch_enough_output_witness :
  ∃ results, (_detect_batch (H := working) [11%nat; 12%nat] []).1 = inr results ∧
             length results = 2%nat.
Proof.
  destruct (detect_batch_enough_output (H := working) [11%nat; 12%nat] [] [11%nat; 12%nat]
              (scenario_row <$> [11%nat; 12%nat]))
    as (results & Hdet & Hlen); [done | reflexivity | reflexivity | |].
  - intros [|[|i]] Hi; [| |simpl in Hi; lia];
      eexists _, _; (split; [reflexivity|]); vm_compute; reflexivity.
  - exists results. by rewrite Hdet.
Defined.

Lemma argmax_is_greatest_witness :
  argmax (H := working) [100; 900; 900] = inr (1%nat, 900) ∧
  ∀ x, x ∈ [100; 900; 900] → (900 <? x) = false.
Proof.
  split; [reflexivity|].
  apply (argmax_is_greatest (H := working) [100; 900; 900] 1 900).
  - intros a b Hab. apply Z.ltb_lt in Hab. apply Z.ltb_ge. lia.
  - intros a b c Hab Hbc. apply Z.ltb_ge in Hab, Hbc. apply Z.ltb_ge. lia.
  - reflexivity.
Defined.

Lemma row_result_well_formed_witness :
  ∃ r, row_result (H := working) [900; 100] = inr r ∧
       id2label !! 0%nat = Some (predicted_class r) ∧ confidence r = 900.
Proof.
  destruct (row_result_well_formed (H := working) [900; 100]) as (r & i & v & Hr & Harg & _ & Hcls & Hconf & _).
  - intros j Hj. change (size id2label) with 2%nat in Hj.
    destruct j as [|[|j]]; [by eexists|by eexists|lia].
  - reflexivity.
  - done.
  - injection Harg as <- <-. by exists r.
Defined.

Lemma scores_hold_the_row_witness :
  ∃ r, row_result (H := working) [900; 100] = inr r ∧
       scores r !! "normal"%string = Some 900 ∧
       scores r !! "nsfw"%string = Some 100.
Proof.
  destruct (row_result (H := working) [900; 100]) as [e|r] eqn:Hrow; [by vm_compute in Hrow|].
  exists r. split; [done|].
  destruct (scores_hold_the_row (H := working) [900; 100] r) as [Hscores _]; [|exact Hrow|].
  - intros i j l Hi Hj.
    assert (∀ k l', id2label !! k = Some l' →
              (k = 0%nat ∧ l' = "normal"%string) ∨ (k = 1%nat ∧ l' = "nsfw"%string))
      as Hk.
    { intros k l' Hl. change (scenario_labels !! k = Some l') in Hl.
      unfold scenario_labels in Hl.
      apply lookup_insert_Some in Hl as [[<- <-]|[? Hl]]; [by left|].
      apply lookup_singleton_Some in Hl as [<- <-]. by right. }
    destruct (Hk _ _ Hi) as [[-> ->]|[-> ->]], (Hk _ _ Hj) as [[-> ?]|[-> ?]];
      simplify_eq; done.
  - split.
    + destruct (Hscores 0%nat "normal"%string) as (v & Hv & Hl);
        [vm_compute; lia | reflexivity |]. by injection Hv as <-.
    + destruct (Hscores 1%nat "nsfw"%string) as (v & Hv & Hl);
        [vm_compute; lia | reflexivity |]. by injection Hv as <-.
Defined.

Lemma main_batch_never_refuses_witness :
  ∃ s, run batch_default three_requests
         [Run (Request 0); Run (Request 1); Run (Request 2)] = Some s ∧
       full batch_default (request_queue s) = false ∧
       ∀ i c it deadline, callers s !! i = Some c → pc c ≠ CPut it deadline.
Proof.
  ran s Hrun. exists s. split; [done|].
  destruct (main_batch_never_refuses (H := working) ∅ batch_default (-51000) []
              (Some ARound) three_callers s) as [Hfull Hput];
    [vm_compute; reflexivity | by eapply run_reachable |].
  split; [apply Hfull|exact Hput].
Defined.

Lemma batch_size_bounds_witness :
  ∃ s, run batch4 one_request until_flush = Some s ∧
       ∃ start_time batch_items,
         batch_thread s = Some (ADetect start_time batch_items) ∧
         1 ≤ Z.of_nat (length batch_items) ≤ 4.
Proof.
  ran s Hrun. exists s. split; [done|].
  observe batch_thread Hrun Hpc. eexists _, _. split; [exact Hpc|].
  apply (batch_size_bounds (H := working) batch4 0 [] one_caller s _ _
           ltac:(done) (run_reachable _ _ _ _ Hrun) Hpc).
Defined.

Lemma full_batch_flushes_at_once_witness :
  ∃ s s', run batch4 four_requests four_queued = Some s ∧
          run batch4 s (replicate 9 (Run Aggregator)) = Some s' ∧
          image <$> (match batch_thread s' with
                     | Some (ADetect _ batch_items) => batch_items
                     | _ => []
                     end) = [11%nat; 12%nat; 13%nat; 14%nat] ∧
          now s' = now s ∧ request_queue s' = [].
Proof.
  ran s Hrun. exists s.
  observe batch_thread Hrun Hpc. observe request_queue Hrun Hq. observe now Hrun Hnow.
  edestruct (full_batch_flushes_at_once (H := working) batch4 s 0)
    as (s' & Hrun' & Hpc' & Hnow' & Hq' & _);
    [reflexivity | exact Hpc | rewrite Hq; symmetry; apply app_nil_r
    | reflexivity | rewrite Hnow; reflexivity |].
  exists s'. split; [done|]. split; [exact Hrun'|]. by rewrite Hpc'.
Defined.

Lemma waiting_item_is_kept_witness :
  ∃ s, run batch4 three_requests idle_then_three = Some s ∧
       (first_of_three ∈ request_queue s ∨
        (∃ a, batch_thread s = Some a ∧ first_of_three ∈ in_hand a) ∨
        event first_of_three ∈ events s).
Proof.
  ran s Hrun. exists s. split; [done|].
  observe (λ s, callers s !! 0%nat) Hrun Hc.
  by apply (waiting_item_is_kept (H := working) batch4 (-51000) [] (Some ARound)
              three_callers s 0 _ first_of_three 30000000
              (run_reachable _ _ _ _ Hrun) Hc).
Defined.

Lemma batched_request_gets_its_result_witness :
  ∃ s s' r, run batch4 one_request until_flush = Some s ∧
            run batch4 s (replicate 4 (Run Aggregator) ++
                          [Run (Request 0); Run (Request 0)]) = Some s' ∧
            pc <$> callers s' !! 0%nat = Some (CReturn (inr r)) ∧
            is_nsfw r = true ∧
            results_map s' !! (0, 1%nat) = None.
Proof.
  ran s Hrun. exists s.
  observe batch_thread Hrun Hpc. observe calls Hrun Hcalls.
  observe (λ s, callers s !! 0%nat) Hrun Hc.
  edestruct (batched_request_gets_its_result (H := working) batch4 s 0
               [@Build_item working (0, 1%nat) 11%nat 0%nat])
    with (i := 0%nat) (k := 0%nat)
    as (s' & r & Hrun' & Hr & Hc' & Hgone & _);
    [ exact Hpc
    | rewrite Hcalls; vm_compute; reflexivity
    | by apply NoDup_singleton | exact Hc | reflexivity | reflexivity | ].
  exists s', r. split; [done|]. split; [exact Hrun'|].
  split; [by rewrite Hc'|]. split; [by injection Hr as <-|exact Hgone].
Defined.

Lemma init_context_starts_thread_witness :
  (init_context batch4 []).1 = inr (Some ARound) ∧
  (init_context batch4 []).2 =
    [CallProcessor (replicate 4 (white (Collaborators := working)));
     CallModel (replicate 4 (white (Collaborators := working)))].
Proof.
  destruct (init_context (H := working) batch4 []) as [[e|a] log'] eqn:Hinit;
    [by vm_compute in Hinit|].
  destruct (init_context_starts_thread (H := working) batch4 []) as [Hok _].
  destruct (Hok a log' Hinit) as ([_ Hstart] & _ & Hwarm).
  split; [by rewrite Hstart|].
  destruct (Hwarm eq_refl) as (inputs & Hinputs & ->).
  by injection Hinputs as <-.
Defined.

Lemma client_batch_answer_witness :
  ∃ f, direct_response batch4 (handler batch4 (images_body [11%nat; 12%nat])) = Some f ∧
       ∃ rs, reply_body (f []).1 = DataList 2 rs ∧ length rs = 2%nat.
Proof.
  destruct (client_batch_answer (H := working) batch4 (images_body [11%nat; 12%nat])
              [11%nat; 12%nat] eq_refl eq_refl eq_refl) as (f & Hf & Hanswer).
  exists f. split; [exact Hf|].
  destruct (Hanswer []) as [Hok _]. apply Hok.
  vm_compute in Hf. injection Hf as <-. reflexivity.
Defined.

Lemma get_ends_with_the_timer_witness :
  ∃ s start_time batch_items deadline,
    run batch4 one_request until_second_get = Some s ∧
    batch_thread s = Some (AGet start_time batch_items deadline) ∧
    start_time + 50000 ≤ deadline < start_time + 51000.
Proof.
  ran s Hrun. exists s.
  observe batch_thread Hrun Hpc. eexists _, _, _. split; [done|].
  split; [exact Hpc|].
  by apply (get_ends_with_the_timer (H := working) batch4 0 [] one_caller s _ _ _
              (run_reachable _ _ _ _ Hrun) Hpc).
Defined.

Lemma queued_requests_witness :
  handler batch_default (image_body 7) = Queued 7%nat ∧ 1 < BATCH_SIZE batch_default.
Proof.
  assert (handler batch_default (image_body 7) = Queued 7%nat) as Hq
    by (vm_compute; reflexivity).
  split; [exact Hq|].
  by destruct (queued_requests (H := working) batch_default (image_body 7) 7%nat Hq).
Defined.

Lemma direct_call_is_own_image_witness :
  ∃ s, run batch4 one_request until_overlap = Some s ∧
       calls_of (Request 0) s = [(Request 0, [11%nat])].
Proof.
  ran s Hrun. exists s. split; [done|].
  observe (λ s, callers s !! 0%nat) Hrun Hc.
  destruct (direct_call_is_own_image (H := working) batch4 0 [] (Some ARound)
              one_caller s 0 _ (run_reachable _ _ _ _ Hrun) Hc) as [Hdirect _].
  by apply Hdirect.
Defined.
